(** * hubbmOS: site image inventory — report schema, orchestration wrapper,
      dashboard table, workflow action, and the crawl/extract core.

    The development embeds the TypeScript/JavaScript and shell sources of the
    repository as Rocq definitions and states the properties of the
    specification over them.  The crawler and the extractor
    ([scripts/crawl_site.py], [scripts/extract_images.py]) are only called by
    the wrapper script; their models follow the specification text and are
    marked as such. *)

From Stdlib Require Import ZArith Lia Bool Ascii String List.
From Stdlib Require Import SpecFloat.
From stdpp Require Import base decidable option list strings pretty gmap.

Set Warnings "-register-all".

Local Open Scope string_scope.
Local Open Scope list_scope.

(* ===================================================================== *)
(** * The report record *)
(* ===================================================================== *)

(** [export interface ImageRecord] of the dashboard table component. *)
Record ImageRecord := mkImageRecord {
  page : string;
  hubspot_folder : string;
  hubspot_path : string;
  src : string;
  alt : string;
  title : string;
  nearest_heading : string;
}.

Module Schema.

(** The fragment of TypeScript's type language that an interface member
    can be declared with. *)
Inductive ts_type :=
| TsString
| TsNumber
| TsBoolean
| TsNull
| TsUndefined
| TsArray (t : ts_type)
| TsUnion (a b : ts_type).

(** One member of an interface declaration: [name: type] or
    [name?: type]. *)
Record ts_member := mkMember {
  m_name : string;
  m_optional : bool;
  m_type : ts_type;
}.

(** The declaration of [ImageRecord], member by member, in source order. *)
Definition ImageRecord_interface : list ts_member :=
  [ mkMember "page" false TsString;
    mkMember "hubspot_folder" false TsString;
    mkMember "hubspot_path" false TsString;
    mkMember "src" false TsString;
    mkMember "alt" false TsString;
    mkMember "title" false TsString;
    mkMember "nearest_heading" false TsString ].

(** A member admits only strings: it is required and its type is
    [string]. *)
Definition string_only (m : ts_member) : bool :=
  negb (m_optional m) &&
  match m_type m with TsString => true | _ => false end.

(** Modelled from the spec: the header of the report file, written by
    [scripts/extract_images.py], which is not part of the sources at hand.
    "Report file schema (column order fixed)". *)
Definition report_columns : list string :=
  [ "page"; "hubspot_folder"; "hubspot_path"; "src"; "alt"; "title";
    "nearest_heading" ].

(** Property access [record[key]] on an [ImageRecord] object. *)
Definition get_field (r : ImageRecord) (key : string) : option string :=
  if String.eqb key "page" then Some (page r)
  else if String.eqb key "hubspot_folder" then Some (hubspot_folder r)
  else if String.eqb key "hubspot_path" then Some (hubspot_path r)
  else if String.eqb key "src" then Some (src r)
  else if String.eqb key "alt" then Some (alt r)
  else if String.eqb key "title" then Some (title r)
  else if String.eqb key "nearest_heading" then Some (nearest_heading r)
  else None.

End Schema.

(* ===================================================================== *)
(** * The orchestration wrapper [analytics/extract_site_images.sh] *)
(* ===================================================================== *)

Module Wrapper.

(** A simple command of the script after expansion: the [echo] builtin
    with its line, or an external program with its argument vector. *)
Inductive command :=
| Echo (line : string)
| Exec (argv : list string).

(** [${1:-word}]: the first positional parameter, or [word] when the
    parameter is unset or null. *)
Definition param_default (p : option string) (word : string) : string :=
  match p with
  | Some s => if String.eqb s "" then word else s
  | None => word
  end.

Definition DEFAULT_SITE_URL : string := "https://automation.broadcom.com/".

Definition SITE_URL (args : list string) : string :=
  param_default (head args) DEFAULT_SITE_URL.
Definition MIRROR_DIR : string := "site_mirror".
Definition CSV_OUT : string := "analytics/ui/public/image-report.csv".

Definition crawl_step (args : list string) : command :=
  Exec [ "python3"; "scripts/crawl_site.py"; SITE_URL args;
         "--output"; MIRROR_DIR; "--max-pages"; "50"; "--delay"; "1.5" ].

Definition extract_step : command :=
  Exec [ "python3"; "scripts/extract_images.py"; MIRROR_DIR;
         "--csv-out"; CSV_OUT; "--verbose" ].

(** The commands of the script in order (the three assignments only set
    the variables expanded above): the banner of step 1, the crawl step,
    and what follows it. *)
Definition step1_banner (args : list string) : command :=
  Echo ("Step 1: Crawling " +:+ SITE_URL args +:+
        " (one-time, respectful crawl)...").

Definition after_crawl : list command :=
  [ Echo "";
    Echo "Step 2: Extracting images from mirrored pages...";
    extract_step;
    Echo "";
    Echo ("✅ Complete! Images extracted to " +:+ CSV_OUT);
    Echo "   Run 'cd analytics/ui && npm run dev' to view in dashboard" ].

Definition script (args : list string) : list command :=
  step1_banner args :: crawl_step args :: after_crawl.

(** The environment decides the exit status of the [n]-th command that
    the shell runs. *)
Definition env := nat -> command -> nat.

(** Execution under [set -e]: commands run in order; the first one with a
    non-zero status ends the shell with that status.  The result is the
    list of commands that were run and the exit status of the script. *)
Fixpoint run_errexit (e : env) (n : nat) (cmds : list command)
  : list command * nat :=
  match cmds with
  | [] => ([], 0)
  | c :: rest =>
      let st := e n c in
      if Nat.eqb st 0
      then let '(tr, code) := run_errexit e (S n) rest in (c :: tr, code)
      else ([c], st)
  end.

Definition run (e : env) (args : list string) : list command * nat :=
  run_errexit e 0 (script args).

Definition is_exec (c : command) : bool :=
  match c with Exec _ => true | Echo _ => false end.

(** The external programs among a list of commands. *)
Definition invocations (cmds : list command) : list command :=
  List.filter is_exec cmds.

(** An environment in which every command succeeds. *)
Definition all_succeed : env := fun _ _ => 0.

(** An environment in which only the command at position [k] fails,
    with status [st]. *)
Definition fails_at (k st : nat) : env :=
  fun n _ => if Nat.eqb n k then st else 0.

End Wrapper.

(* ===================================================================== *)
(** * The dashboard table ([ImageTable] and [Badge]) *)
(* ===================================================================== *)

Module Dashboard.

(** Values of element properties. *)
Inductive prop_val :=
| PStr (s : string)           (* a string *)
| PNum (n : nat)              (* a number *)
| PCn (parts : list (option string))
                              (* the class name [cn(parts...)]; [None] is
                                 an argument that is [undefined] *)
| PRowVariants.               (* the module constant [rowVariants] *)

(** Rendered element trees. *)
Inductive VNode :=
| VText (s : string)
| VElem (tag : string) (props : list (string * prop_val))
        (children : list VNode).

(** [a || b] on strings: [a] when it is truthy (non-empty), else [b]. *)
Definition or_else (a b : string) : string :=
  if String.eqb a "" then b else a.

Definition dash : string := "—".

(** [const columns]. *)
Definition columns : list (string * string) :=
  [ ("page", "Page");
    ("hubspot_folder", "HubSpot Folder");
    ("hubspot_path", "HubSpot Path");
    ("nearest_heading", "Section Heading");
    ("alt", "Alt Text") ].

(** [Badge({ className, children })]; [className] is optional. *)
Definition Badge (className : option string) (children : list VNode)
  : VNode :=
  VElem "span"
    [ ("className",
       PCn [ Some "inline-flex items-center rounded-full px-3 py-0.5 text-xs font-semibold";
             className ]) ]
    children.

(** The template literal of the row key. *)
Definition row_key (page_url source : string) (index : nat) : string :=
  page_url +:+ "-" +:+ source +:+ "-" +:+ pretty index.

(** Objects live in a store and are passed by reference: the [images]
    prop is an array of references to [ImageRecord] objects. *)
Definition loc := nat.
Definition heap := gmap loc ImageRecord.

(** Rendering reads the store; it is written in store-passing style so
    that what it does to the store is a property to state.  [None] is a
    reference to no object, which a value of type [ImageRecord[]] never
    holds. *)
Definition Render (A : Type) : Type := heap -> option (A * heap).

Definition ret {A} (a : A) : Render A := fun h => Some (a, h).

Definition bind {A B} (m : Render A) (k : A -> Render B) : Render B :=
  fun h => match m h with
           | Some (a, h') => k a h'
           | None => None
           end.

(** [image.field] *)
Definition read (image : loc) (field : ImageRecord -> string)
  : Render string :=
  fun h => match h !! image with
           | Some r => Some (field r, h)
           | None => None
           end.

Notation "'let*' x ':=' m 'in' k" := (bind m (fun x => k))
  (at level 10, x name, m at level 100, k at level 200).

(** [array.map((x, index) => f(x, index))] from index [i] on. *)
Fixpoint map_indexed {A B} (f : A -> nat -> Render B) (i : nat)
         (l : list A) : Render (list B) :=
  match l with
  | [] => ret []
  | x :: rest =>
      let* y := f x i in
      let* ys := map_indexed f (S i) rest in
      ret (y :: ys)
  end.

(** One body row: the [motion.tr] element for [image] at [index]. *)
Definition render_row (image : loc) (index : nat) : Render VNode :=
  let* key_page := read image page in
  let* key_src := read image src in
  let* c_page := read image page in
  let* c_folder := read image hubspot_folder in
  let* c_path := read image hubspot_path in
  let* c_heading := read image nearest_heading in
  let* c_alt := read image alt in
  let* c_href := read image src in
  ret (VElem "motion.tr"
    [ ("key", PStr (row_key key_page key_src index));
      ("custom", PNum index);
      ("initial", PStr "hidden");
      ("animate", PStr "visible");
      ("variants", PRowVariants);
      ("className",
       PStr "border-b text-sm text-slate-600 transition-colors hover:bg-slate-50/70") ]
    [ VElem "td" [ ("className", PStr "p-4 font-medium text-slate-900") ]
        [ VText c_page ];
      VElem "td" [ ("className", PStr "p-4") ]
        [ Badge (Some "bg-slate-900/80 text-white")
                [ VText (or_else c_folder dash) ] ];
      VElem "td" [ ("className", PStr "p-4") ]
        [ VElem "span" [ ("className", PStr "font-mono text-xs text-slate-500") ]
            [ VText c_path ] ];
      VElem "td" [ ("className", PStr "p-4") ]
        [ VText (or_else c_heading dash) ];
      VElem "td" [ ("className", PStr "p-4") ]
        [ VText (or_else c_alt dash) ];
      VElem "td" [ ("className", PStr "p-4") ]
        [ VElem "a"
            [ ("href", PStr c_href);
              ("target", PStr "_blank");
              ("rel", PStr "noreferrer");
              ("className",
               PCn [ Some "inline-flex items-center gap-2 rounded-full border border-slate-200 px-3 py-1 text-xs font-semibold text-slate-600";
                     Some "transition-colors hover:border-slate-400 hover:text-slate-900" ]) ]
            [ VText "Open";
              VElem "ExternalLink" [ ("className", PStr "h-3 w-3") ] [] ] ] ]).

Definition header_row : VNode :=
  VElem "tr"
    [ ("className",
       PStr "border-b bg-slate-50/80 text-left text-sm font-semibold text-slate-500") ]
    (List.map (fun col : string * string =>
                 VElem "th" [ ("key", PStr (fst col)); ("className", PStr "p-4") ]
                   [ VText (snd col) ])
              columns
     ++ [ VElem "th"
            [ ("className", PStr "p-4 text-sm font-semibold text-slate-500") ]
            [ VText "Image" ] ]).

Definition empty_row : VNode :=
  VElem "tr" []
    [ VElem "td"
        [ ("colSpan", PNum (length columns + 1));
          ("className", PStr "p-6 text-center") ]
        [ VText "No images matched the current filters." ] ].

(** [ImageTable({ images })]. *)
Definition ImageTable (images : list loc) : Render VNode :=
  let* rows := (if Nat.eqb (length images) 0
                then ret [ empty_row ]
                else map_indexed render_row 0 images) in
  ret (VElem "div"
    [ ("className", PStr "rounded-xl border border-slate-200 bg-white shadow-sm") ]
    [ VElem "div" [ ("className", PStr "relative w-full overflow-auto") ]
        [ VElem "table" [ ("className", PStr "w-full min-w-[700px]") ]
            [ VElem "thead" [] [ header_row ];
              VElem "tbody" [] rows ] ] ]).

(** ** Reading a rendered tree *)

(** The text a node displays: its text leaves, left to right. *)
Fixpoint text_content (n : VNode) : string :=
  match n with
  | VText s => s
  | VElem _ _ cs =>
      (fix go (l : list VNode) : string :=
         match l with
         | [] => ""
         | c :: l' => text_content c +:+ go l'
         end) cs
  end.

Definition children (n : VNode) : list VNode :=
  match n with
  | VText _ => []
  | VElem _ _ cs => cs
  end.

Definition tag_is (t : string) (n : VNode) : bool :=
  match n with
  | VText _ => false
  | VElem t' _ _ => String.eqb t t'
  end.

(** The descendants of [n] with tag [t] that are reached without passing
    through another node with tag [t], in document order. *)
Fixpoint find_tag (t : string) (n : VNode) : list VNode :=
  match n with
  | VText _ => []
  | VElem t' _ cs =>
      if String.eqb t t' then [ n ]
      else (fix go (l : list VNode) : list VNode :=
              match l with
              | [] => []
              | c :: l' => find_tag t c ++ go l'
              end) cs
  end.

(** The elements reached from [n] by going down through children with
    the tags of [path], one after the other. *)
Fixpoint select (path : list string) (n : VNode) : list VNode :=
  match path with
  | [] => [ n ]
  | t :: rest =>
      List.flat_map (select rest) (List.filter (tag_is t) (children n))
  end.

(** The rows of the table body and of the table head, in the tree that
    [ImageTable] returns. *)
Definition body_rows (table : VNode) : list VNode :=
  List.flat_map children (select [ "div"; "table"; "tbody" ] table).

Definition head_rows (table : VNode) : list VNode :=
  List.flat_map children (select [ "div"; "table"; "thead" ] table).

(** The text of every cell of every row of the table body. *)
Definition body_cells (table : VNode) : list (list string) :=
  List.map (fun row => List.map text_content (children row))
           (body_rows table).

(** The text of every cell of every row of the table head. *)
Definition head_cells (table : VNode) : list (list string) :=
  List.map (fun row => List.map text_content (children row))
           (head_rows table).

(** The value of a property of an element. *)
Definition prop_of (name : string) (n : VNode) : option prop_val :=
  match n with
  | VText _ => None
  | VElem _ props _ =>
      snd <$> List.find (fun kv => String.eqb name (fst kv)) props
  end.

(** The targets of the links inside a node, with how they open. *)
Definition links (n : VNode)
  : list (option prop_val * option prop_val * option prop_val) :=
  List.map (fun a => (prop_of "href" a, prop_of "target" a, prop_of "rel" a))
           (find_tag "a" n).

(** The link of the row of a record: the image source, opened in a new
    tab. *)
Definition row_link (r : ImageRecord)
  : option prop_val * option prop_val * option prop_val :=
  (Some (PStr (src r)), Some (PStr "_blank"), Some (PStr "noreferrer")).

(** What one record shows, cell by cell. *)
Definition shown (r : ImageRecord) : list string :=
  [ page r;
    (if String.eqb (hubspot_folder r) "" then "—" else hubspot_folder r);
    hubspot_path r;
    (if String.eqb (nearest_heading r) "" then "—" else nearest_heading r);
    (if String.eqb (alt r) "" then "—" else alt r);
    "Open" ].

(** The objects that a list of references denotes in a store. *)
Definition deref (h : heap) (images : list loc) : option (list ImageRecord) :=
  mapM (fun l => h !! l) images.

(** A record with an empty folder, path and alt text, in a store of its
    own. *)
Definition sample_record : ImageRecord :=
  mkImageRecord "https://example.com/about" EmptyString EmptyString
                "https://example.com/a.png" EmptyString "Photo" "Team".

Definition sample_heap : heap := <[ 0 := sample_record ]> ∅.

End Dashboard.

(* ===================================================================== *)
(** * The workflow action ([exports.main]) *)
(* ===================================================================== *)

Module Workflow.

(** JavaScript Numbers are IEEE 754 binary64 values. *)
Definition prec : Z := 53.
Definition emax : Z := 1024.

(** The Number that an integer literal denotes. *)
Definition Number_of_Z (z : Z) : spec_float :=
  binary_normalize prec emax z 0 false.

(** [x * y] on Numbers: the exact product rounded to nearest, ties to
    even. *)
Definition Number_mul (x y : spec_float) : spec_float := SFmul prec emax x y.

(** [Math.floor(x)]: the greatest integral Number not above [x]; NaN,
    infinities and zeros are returned as they are. *)
Definition Math_floor (x : spec_float) : spec_float :=
  match x with
  | S754_finite s m e =>
      if (0 <=? e)%Z then x
      else Number_of_Z (cond_Zopp s (Zpos m) / 2 ^ (- e))
  | _ => x
  end.

(** What [Math.random()] may return: a Number with positive sign, at
    least 0 and below 1. *)
Definition is_random (r : spec_float) : bool :=
  valid_binary prec emax r &&
  match r with
  | S754_zero false => true
  | S754_finite false m e => (Zpos m <? 2 ^ (- e))%Z
  | _ => false
  end.

(** JavaScript values, as far as truthiness tells them apart. *)
Inductive js_value :=
| JsUndefined
| JsNull
| JsBoolean (b : bool)
| JsNumber (x : spec_float)
| JsBigInt (z : Z)
| JsString (s : string)
| JsObject (id : nat).

(** [ToBoolean]: [undefined], [null], [false], zeros, NaN, [0n] and the
    empty string are falsy; everything else is truthy. *)
Definition ToBoolean (v : js_value) : bool :=
  match v with
  | JsUndefined | JsNull => false
  | JsBoolean b => b
  | JsNumber (S754_zero _) | JsNumber S754_nan => false
  | JsNumber _ => true
  | JsBigInt z => negb (z =? 0)%Z
  | JsString s => negb (String.eqb s "")
  | JsObject _ => true
  end.

Record event := mkEvent { inputFields : gmap string js_value }.

(** [obj[key]]: the value of the property, [undefined] when absent. *)
Definition get (obj : gmap string js_value) (key : string) : js_value :=
  default JsUndefined (obj !! key).

(** The argument handed to the callback:
    [{ outputFields: { enriched_revenue } }]. *)
Record output := mkOutput { enriched_revenue : spec_float }.

(** How the call ends: the function is [async], so a [throw] settles the
    returned promise as rejected with the thrown [Error]. *)
Inductive completion :=
| Returned
| Threw (message : string).

(** [exports.main(event, callback)], with the value [random] that
    [Math.random()] returns.  The result lists the calls made to
    [callback], in order, and how [main] ended. *)
Definition main (ev : event) (random : spec_float)
  : list output * completion :=
  let companyDomain := get (inputFields ev) "company_domain" in
  if negb (ToBoolean companyDomain) then
    ([], Threw "Missing company domain")
  else
    let revenue := Math_floor (Number_mul random (Number_of_Z 1000000)) in
    ([ mkOutput revenue ], Returned).

(** An event with another company domain and one more field. *)
Definition sample_event_more : event :=
  mkEvent (<[ "company_name" := JsString "Example" ]>
             (<[ "company_domain" := JsString "example.org" ]> ∅)).

(** An event with a company domain, and the Number one half. *)
Definition sample_event : event :=
  mkEvent (<[ "company_domain" := JsString "example.com" ]> ∅).

Definition one_half : spec_float := S754_finite false 4503599627370496 (-53).

End Workflow.

(* ===================================================================== *)
(** * String helpers shared by the models below *)
(* ===================================================================== *)

Module Str.

(** Remove the characters satisfying [p] from the right end. *)
Fixpoint rstrip_by (p : ascii -> bool) (s : string) : string :=
  match s with
  | EmptyString => EmptyString
  | String c rest =>
      let t := rstrip_by p rest in
      if p c && String.eqb t "" then EmptyString else String c t
  end.

(** Remove the characters satisfying [p] from the left end. *)
Fixpoint lstrip_by (p : ascii -> bool) (s : string) : string :=
  match s with
  | EmptyString => EmptyString
  | String c rest => if p c then lstrip_by p rest else s
  end.

Definition is_slash (c : ascii) : bool := Ascii.eqb c "/".

(** ASCII white space: space, tab, line feed, vertical tab, form feed,
    carriage return. *)
Definition is_space (c : ascii) : bool :=
  let n := nat_of_ascii c in
  Nat.eqb n 32 || (Nat.leb 9 n && Nat.leb n 13).

Definition lower_ascii (c : ascii) : ascii :=
  let n := nat_of_ascii c in
  if Nat.leb 65 n && Nat.leb n 90 then ascii_of_nat (n + 32) else c.

(** Lower-case the ASCII letters of a string. *)
Fixpoint lower (s : string) : string :=
  match s with
  | EmptyString => EmptyString
  | String c rest => String (lower_ascii c) (lower rest)
  end.

Definition starts_with_slash (s : string) : bool :=
  match s with
  | String c _ => is_slash c
  | EmptyString => false
  end.

(** The prefix of [s] up to and including its last slash; empty when [s]
    has no slash. *)
Fixpoint dirname (s : string) : string :=
  match s with
  | EmptyString => EmptyString
  | String c rest =>
      let d := dirname rest in
      if String.eqb d "" then (if is_slash c then String c "" else "")
      else String c d
  end.

End Str.

(* ===================================================================== *)
(** * Canonical URL Normalizer *)
(* ===================================================================== *)

Module Url.

(** Modelled from the spec: the URLs handled by [scripts/crawl_site.py]
    (not part of the sources at hand).  An absolute URL, by components: URL
    strings are represented by the components a URL parser splits them
    into. *)
Record url := mkUrl {
  scheme : string;
  host : string;
  path : string;
  query : option string;
  fragment : option string;
}.

(** Modelled from the spec: "a possibly-relative URL string" as found in
    a page; the scheme and the host may be missing. *)
Record reference := mkRef {
  r_scheme : option string;
  r_host : option string;
  r_path : string;
  r_query : option string;
  r_fragment : option string;
}.

(** Modelled from the spec: [CanonicalURL], the dedup key computed by
    [scripts/crawl_site.py] (not part of the sources at hand): "an opaque,
    comparable key derived from a URL (scheme, host, normalized path, no
    fragment ...)".  None of the rules of the normalizer touches the
    query, so the key keeps it. *)
Record CanonicalURL := mkKey {
  k_scheme : string;
  k_host : string;
  k_path : string;
  k_query : option string;
}.

#[export] Instance CanonicalURL_eq_dec : EqDecision CanonicalURL.
Proof. solve_decision. Defined.

#[export] Instance CanonicalURL_countable : Countable CanonicalURL.
Proof.
  refine (inj_countable'
            (fun k => (k_scheme k, k_host k, k_path k, k_query k))
            (fun t => match t with (s, h, p, q) => mkKey s h p q end) _).
  intros []; reflexivity.
Defined.

#[export] Instance url_eq_dec : EqDecision url.
Proof. solve_decision. Defined.

(** Modelled from the spec: "resolve relative references against base".
    The path of a relative reference replaces the last segment of the
    base path. *)
Definition merge (base_path rel : string) : string :=
  if String.eqb base_path "" then "/" +:+ rel
  else Str.dirname base_path +:+ rel.

(** Modelled from the spec: "resolve relative references against base",
    case by case on what the reference leaves out: nothing, the scheme, the
    scheme and the host, or everything but a query or a fragment. *)
Definition resolve (r : reference) (base : url) : url :=
  match r_scheme r with
  | Some s => mkUrl s (default "" (r_host r)) (r_path r) (r_query r)
                   (r_fragment r)
  | None =>
      match r_host r with
      | Some h => mkUrl (scheme base) h (r_path r) (r_query r) (r_fragment r)
      | None =>
          if String.eqb (r_path r) "" then
            mkUrl (scheme base) (host base) (path base)
                  (match r_query r with
                   | Some q => Some q
                   | None => query base
                   end)
                  (r_fragment r)
          else if Str.starts_with_slash (r_path r) then
            mkUrl (scheme base) (host base) (r_path r) (r_query r)
                  (r_fragment r)
          else
            mkUrl (scheme base) (host base) (merge (path base) (r_path r))
                  (r_query r) (r_fragment r)
      end
  end.

(** Modelled from the spec: "normalizes trailing slashes" (component
    overview) and the rule that collapses a bare (empty) path to [/]:
    trailing slashes are removed, and a path that is empty then is [/]. *)
Definition normalize_path (p : string) : string :=
  let q := Str.rstrip_by Str.is_slash p in
  if String.eqb q "" then "/" else q.

(** Modelled from the spec: the rules "lower-case scheme and host; drop
    URL fragments; collapse a bare path" applied to an absolute URL. *)
Definition canonical (u : url) : CanonicalURL :=
  mkKey (Str.lower (scheme u)) (Str.lower (host u))
        (normalize_path (path u)) (query u).

(** Modelled from the spec: the normalizer of [scripts/crawl_site.py].
    "Input: a possibly-relative URL string and the base URL of the page
    it was found on.  Output: (CanonicalURL, absoluteURLString)."  The
    input is [None] for a string that cannot be parsed as a URL; the
    result is then [None] ([InvalidURL]). *)
Definition normalize (raw : option reference) (base : url)
  : option (CanonicalURL * url) :=
  match raw with
  | None => None
  | Some r => let abs := resolve r base in Some (canonical abs, abs)
  end.

(** An absolute URL read as a reference. *)
Definition absolute (u : url) : reference :=
  mkRef (Some (scheme u)) (Some (host u)) (path u) (query u) (fragment u).

(** A key read back as a URL. *)
Definition key_url (k : CanonicalURL) : url :=
  mkUrl (k_scheme k) (k_host k) (k_path k) (k_query k) None.

(** The key of a link, when the link is valid. *)
Definition key_of (raw : option reference) (base : url)
  : option CanonicalURL :=
  fst <$> normalize raw base.

Definition with_fragment (u : url) (f : option string) : url :=
  mkUrl (scheme u) (host u) (path u) (query u) f.

Definition with_path (u : url) (p : string) : url :=
  mkUrl (scheme u) (host u) p (query u) (fragment u).

End Url.


(* ===================================================================== *)
(** * Frontier, Visited Set and Crawler *)
(* ===================================================================== *)

Module Crawl.

Import Url.

(** Modelled from the spec: [FrontierEntry], "{url: CanonicalURL, rawURL:
    string}": the key of a discovered page and the absolute URL to fetch it
    from. *)
Record FrontierEntry := mkEntry {
  fe_url : CanonicalURL;
  fe_raw : url;
}.

(** Modelled from the spec: [MirroredPage], one successfully fetched page.
    The local path is derived from [mp_source] when the mirror is written
    and plays no part in the traversal. *)
Record MirroredPage := mkPage {
  mp_url : CanonicalURL;
  mp_source : url;
  mp_bytes : string;
}.

(** Modelled from the spec: [CrawlConfig], as far as it steers the
    traversal: the politeness delay and the mirror directory do not change
    which pages are visited. *)
Record CrawlConfig := mkConfig {
  seedURL : url;
  maxPages : nat;
}.

(** Modelled from the spec: the crawl context owned by the Crawler: the
    Frontier (a FIFO queue), the Visited Set, the Mirror Store, and the log
    of fetches. *)
Record state := mkState {
  frontier : list FrontierEntry;
  visited : gset CanonicalURL;
  mirror : list MirroredPage;
  fetched : list FrontierEntry;   (* every fetch issued, in order *)
  failed : list FrontierEntry;    (* the fetches that failed *)
}.

(** The outcome of one turn of the crawl loop. *)
Inductive turn :=
| Stop                 (* the frontier is empty *)
| Abort                (* the fetch of the seed failed *)
| Next (st : state).

Inductive outcome :=
| Finished (st : state)
| Fatal
| OutOfFuel.

Section Crawler.

(** The network: [fetch u] is the body of the page at [u], or [None] for
    a network error, a non-success status or a timeout.  [scan_links] is
    the lightweight scan of a body for hyperlink targets, each one given
    as the URL parser reads it ([None]: not parsable as a URL). *)
Variable fetch : url -> option string.
Variable scan_links : string -> list (option reference).
Variable cfg : CrawlConfig.

Definition seed_key : CanonicalURL := canonical (seedURL cfg).

(** Modelled from the spec: [enqueue] of the Frontier in
    [scripts/crawl_site.py] (not part of the sources at hand).  "adds
    candidate only if its CanonicalURL is not already in VisitedSet and the
    set's size has not reached maxPages; marks it visited immediately on
    enqueue"; "a candidate whose host differs from the seed URL's host is
    never enqueued". *)
Definition enqueue (c : FrontierEntry) (st : state) : state :=
  if bool_decide (k_host (fe_url c) = k_host seed_key) then
    if bool_decide (fe_url c ∈ visited st) then st
    else if Nat.ltb (size (visited st)) (maxPages cfg) then
      mkState (frontier st ++ [c]) ({[ fe_url c ]} ∪ visited st)
              (mirror st) (fetched st) (failed st)
    else st
  else st.

(** Modelled from the spec: a link found on the page at [base] is
    normalized, then enqueued; "the link is then dropped, not enqueued"
    when it is not a URL. *)
Definition discover (base : url) (st : state) (link : option reference)
  : state :=
  match normalize link base with
  | None => st
  | Some (k, abs) => enqueue (mkEntry k abs) st
  end.

Definition empty_state : state := mkState [] ∅ [] [] [].

(** Modelled from the spec: the crawl starts with the seed enqueued (and
    so marked visited). *)
Definition init : state :=
  enqueue (mkEntry seed_key (seedURL cfg)) empty_state.

(** Modelled from the spec: one turn of the Crawler loop.  "while the
    Frontier is non-empty, dequeue one entry, ... fetch the page.  On
    success: write a MirroredPage, parse out ... hyperlink targets ...,
    normalize each ..., and enqueue.  On failure: record the failure and
    continue."  "if that first fetch fails, the crawl fails fatally". *)
Definition step (st : state) : turn :=
  match frontier st with
  | [] => Stop
  | e :: rest =>
      match fetch (fe_raw e) with
      | None =>
          match fetched st with
          | [] => Abort
          | _ :: _ =>
              Next (mkState rest (visited st) (mirror st)
                            (fetched st ++ [e]) (failed st ++ [e]))
          end
      | Some body =>
          let st1 :=
            mkState rest (visited st)
                    (mirror st ++ [mkPage (fe_url e) (fe_raw e) body])
                    (fetched st ++ [e]) (failed st) in
          Next (fold_left (discover (fe_raw e)) (scan_links body) st1)
      end
  end.

(** Modelled from the spec: the crawl loop, "while the Frontier is
    non-empty", for at most [fuel] turns. *)
Fixpoint loop (fuel : nat) (st : state) : outcome :=
  match fuel with
  | 0 => OutOfFuel
  | S fuel' =>
      match step st with
      | Stop => Finished st
      | Abort => Fatal
      | Next st' => loop fuel' st'
      end
  end.

(** A whole crawl.  No state has more than [maxPages] fetches behind it,
    so one more turn than that is enough to see the frontier empty. *)
Definition crawl : outcome := loop (S (maxPages cfg)) init.

(** The states the crawl loop goes through. *)
Inductive reachable : state -> Prop :=
| reach_init : reachable init
| reach_step st st' : reachable st -> step st = Next st' -> reachable st'.

(** A URL on the host of the seed URL (hosts compare without regard to
    case). *)
Definition on_seed_host (u : url) : Prop :=
  Str.lower (host u) = Str.lower (host (seedURL cfg)).

(** An entry whose key is the key of its URL and is on the host of the
    seed. *)
Definition same_host (e : FrontierEntry) : Prop :=
  fe_url e = canonical (fe_raw e) /\ k_host (fe_url e) = k_host seed_key.

(** What every state of a crawl satisfies: the Visited Set is within the
    budget; every key in it belongs to exactly one entry, waiting in the
    frontier or already fetched; and every such entry, and every mirrored
    page, is on the host of the seed. *)
Record crawl_inv (st : state) : Prop := mkInv {
  inv_budget : size (visited st) <= maxPages cfg;
  inv_count : length (fetched st) + length (frontier st) = size (visited st);
  inv_frontier : Forall same_host (frontier st);
  inv_fetched : Forall same_host (fetched st);
  inv_mirror : Forall (fun p => mp_url p = canonical (mp_source p)
                                /\ k_host (mp_url p) = k_host seed_key)
                      (mirror st);
}.

(** Modelled from the spec: what has become of an entry that was fetched.
    "On success: write a MirroredPage"; "On failure ...: record the
    failure". *)
Definition settled (st : state) (e : FrontierEntry) : Prop :=
  match fetch (fe_raw e) with
  | Some body => mkPage (fe_url e) (fe_raw e) body ∈ mirror st
  | None => e ∈ failed st
  end.

(** The reading of the termination rule under which the loop is over at
    the first state with an empty frontier or a full Visited Set. *)
Definition stops_at_budget : Prop :=
  forall st, reachable st ->
    (frontier st = [] \/ size (visited st) = maxPages cfg) ->
    step st = Stop.

End Crawler.

(** ** The end-to-end scenario of the specification

    Seed [https://example.com/], budget 2; the seed page links to [/about]
    on the same site and to [https://other.com/x]. *)

Definition example_root : url :=
  mkUrl "https" "example.com" "/" None None.
Definition example_about : url :=
  mkUrl "https" "example.com" "/about" None None.
Definition other_x : url :=
  mkUrl "https" "other.com" "/x" None None.

Definition scenario_cfg : CrawlConfig := mkConfig example_root 2.

Definition scenario_fetch (u : url) : option string :=
  if bool_decide (u = example_root) then Some "root"
  else if bool_decide (u = example_about) then Some "about"
  else if bool_decide (u = other_x) then Some "other"
  else None.

Definition scenario_links (body : string) : list (option reference) :=
  if String.eqb body "root"
  then [ Some (mkRef None None "/about" None None);
         Some (absolute other_x) ]
  else [].

(** The state of the scenario after the seed page has been fetched. *)
Definition scenario_after_seed : state :=
  match step scenario_fetch scenario_links scenario_cfg
             (init scenario_cfg) with
  | Next st => st
  | _ => init scenario_cfg
  end.

(** A candidate on another host. *)
Definition other_entry : FrontierEntry := mkEntry (canonical other_x) other_x.

(** The scenario on a site that does not answer at all, and on one where
    only the [/about] page does not answer. *)
Definition site_down_fetch (u : url) : option string := None.

Definition about_down_fetch (u : url) : option string :=
  if bool_decide (u = example_about) then None else scenario_fetch u.

End Crawl.


(* ===================================================================== *)
(** * Heading-Context Resolver *)
(* ===================================================================== *)

Module Extract.

(** Modelled from the spec: [DocumentNode] as built by the Document Parser
    of [scripts/extract_images.py] (not part of the sources at hand): "a
    closed tagged variant ([Element] with tag+attributes+children, [Text]
    with content)". *)
Inductive DocumentNode :=
| Element (tagName : string) (attributes : gmap string string)
          (children : list DocumentNode)
| Text (textContent : string).

(** Heading elements of levels 1 to 6. *)
Definition is_heading_tag (t : string) : bool :=
  existsb (String.eqb t) [ "h1"; "h2"; "h3"; "h4"; "h5"; "h6" ].

Definition is_image_tag (t : string) : bool := String.eqb t "img".

Definition is_heading (n : DocumentNode) : bool :=
  match n with
  | Element t _ _ => is_heading_tag t
  | Text _ => false
  end.

Definition is_image (n : DocumentNode) : bool :=
  match n with
  | Element t _ _ => is_image_tag t
  | Text _ => false
  end.

(** The text content of a node: the text of its descendants, in order. *)
Fixpoint text_of (n : DocumentNode) : string :=
  match n with
  | Text s => s
  | Element _ _ cs =>
      (fix go (l : list DocumentNode) : string :=
         match l with
         | [] => EmptyString
         | c :: l' => text_of c +:+ go l'
         end) cs
  end.

Definition trim (s : string) : string :=
  Str.rstrip_by Str.is_space (Str.lstrip_by Str.is_space s).

(** Modelled from the spec: the resolver of [scripts/extract_images.py]
    (not part of the sources at hand).  "Algorithm: single pre-order walk
    maintaining 'last heading text seen so far'; whenever an image element
    is visited, snapshot that running value."  [walk n last] returns the
    running value after the subtree of [n] and the images of the subtree
    with their snapshots, in document order. *)
Fixpoint walk (n : DocumentNode) (last : string)
  : string * list (DocumentNode * string) :=
  match n with
  | Text _ => (last, [])
  | Element t _ cs =>
      let last1 := if is_heading_tag t then trim (text_of n) else last in
      let here := if is_image_tag t then [ (n, last1) ] else [] in
      let '(last2, below) :=
        (fix go (l : list DocumentNode) (cur : string)
           : string * list (DocumentNode * string) :=
           match l with
           | [] => (cur, [])
           | c :: l' =>
               let '(cur1, out1) := walk c cur in
               let '(cur2, out2) := go l' cur1 in
               (cur2, out1 ++ out2)
           end) cs last1 in
      (last2, here ++ below)
  end.

(** The walk over the children of an element, left to right (the inner
    loop of [walk]). *)
Definition walk_children
  : list DocumentNode -> string -> string * list (DocumentNode * string) :=
  fix go (l : list DocumentNode) (cur : string)
    : string * list (DocumentNode * string) :=
    match l with
    | [] => (cur, [])
    | c :: l' =>
        let '(cur1, out1) := walk c cur in
        let '(cur2, out2) := go l' cur1 in
        (cur2, out1 ++ out2)
    end.

(** The resolver on a whole document: nothing has been seen at the
    root. *)
Definition resolve_headings (doc : DocumentNode)
  : list (DocumentNode * string) :=
  snd (walk doc EmptyString).

(** ** The output as the specification words it *)

(** Modelled from the spec: "a pre-order, depth-first traversal of the
    whole document": a node, then the traversals of its children from left
    to right. *)
Fixpoint preorder (n : DocumentNode) : list DocumentNode :=
  match n with
  | Text _ => [ n ]
  | Element _ _ cs =>
      n :: (fix go (l : list DocumentNode) : list DocumentNode :=
              match l with
              | [] => []
              | c :: l' => preorder c ++ go l'
              end) cs
  end.

(** The nodes of a sequence of sibling subtrees in pre-order (the inner
    loop of [preorder]). *)
Definition preorder_children : list DocumentNode -> list DocumentNode :=
  fix go (l : list DocumentNode) : list DocumentNode :=
    match l with
    | [] => []
    | c :: l' => preorder c ++ go l'
    end.

(** Modelled from the spec: "the trimmed text content of the nearest
    heading element that precedes it": the last heading among the nodes
    before it, or the empty string when there is none. *)
Definition nearest_heading_before (before : list DocumentNode) : string :=
  match last (List.filter is_heading before) with
  | Some h => trim (text_of h)
  | None => EmptyString
  end.

(** Modelled from the spec: the output of the resolver as the
    specification words it: every image of the document, in document order,
    with the nearest heading among the nodes that precede it in the
    pre-order traversal. *)
Definition nearest_headings (doc : DocumentNode)
  : list (DocumentNode * string) :=
  let nodes := preorder doc in
  omap id
    (imap (fun i n =>
             if is_image n
             then Some (n, nearest_heading_before (take i nodes))
             else None)
          nodes).

(** The same for a stretch [nodes] of the traversal that comes after the
    nodes [pre]. *)
Definition labels_from (pre nodes : list DocumentNode)
  : list (DocumentNode * string) :=
  omap id
    (imap (fun i n =>
             if is_image n
             then Some (n, nearest_heading_before (pre ++ take i nodes))
             else None)
          nodes).

(** ** The page of the end-to-end scenario *)

Definition el (t : string) (cs : list DocumentNode) : DocumentNode :=
  Element t ∅ cs.

Definition img (source alt_text : string) : DocumentNode :=
  Element "img" (<[ "src" := source ]> (<[ "alt" := alt_text ]> ∅)) [].

Definition scenario_page : DocumentNode :=
  el "body"
    [ el "h2" [ Text "Team" ];
      el "p" [ img "a.png" "A" ];
      el "h2" [ Text "Gallery" ];
      img "b.png" "B" ].

End Extract.


(* ===================================================================== *)
(** * The avatar component ([Avatar]) *)
(* ===================================================================== *)

Module AvatarComponent.

Import Dashboard.

(** The value of an image attribute; the string- and the number-valued
    attributes of [ImgHTMLAttributes] are the ones modelled, [children]
    among them (a string and a number are React nodes). *)
Inductive attr_val :=
| AStr (s : string)
| ANum (n : nat).

(** The image attributes of a props object: its properties other than
    [fallback] and [className], in insertion order.  What is passed
    between the tags of [<Avatar>] is the property [children]. *)
Definition attrs := list (string * attr_val).

Definition has_key (key : string) (kv : string * attr_val) : bool :=
  String.eqb key (fst kv).

(** [obj[key]]: [None] is [undefined]. *)
Definition lookup_attr (key : string) (obj : attrs) : option attr_val :=
  snd <$> List.find (has_key key) obj.

(** [{ fallback, className, ...props }]: the rest object holds every
    property but the two that are taken out by name. *)
Definition rest_props (obj : attrs) : attrs :=
  List.filter (fun kv => negb (has_key "fallback" kv)
                         && negb (has_key "className" kv))
              obj.

(** Truthiness of an attribute: the empty string, zero and [undefined] are
    falsy. *)
Definition truthy (v : option attr_val) : bool :=
  match v with
  | Some (AStr s) => negb (String.eqb s EmptyString)
  | Some (ANum n) => negb (Nat.eqb n 0)
  | None => false
  end.

(** An attribute value as an element property. *)
Definition attr_prop (v : attr_val) : prop_val :=
  match v with
  | AStr s => PStr s
  | ANum n => PNum n
  end.

(** [{...props}] on an element. *)
Definition spread (obj : attrs) : list (string * prop_val) :=
  List.map (fun kv => (fst kv, attr_prop (snd kv))) obj.

(** The children of an element whose property [children] is [v]: one text,
    or none when the property is [undefined]. *)
Definition child_nodes (v : option attr_val) : list VNode :=
  match v with
  | Some (AStr s) => [ VText s ]
  | Some (ANum n) => [ VText (pretty n) ]
  | None => []
  end.

(** The properties that an element tree lists with the element: every one
    but [children], which is the child list of the element, and but
    [className] where the element sets its own after the spread. *)
Definition listed (kv : string * prop_val) : bool :=
  negb (String.eqb "className" (fst kv))
  && negb (String.eqb "children" (fst kv)).

(** A class argument of [cn] read from an object: a string, or
    [undefined]. *)
Definition class_arg (v : option attr_val) : option string :=
  match v with
  | Some (AStr s) => Some s
  | _ => None
  end.

(** [Avatar({ fallback, className, ...props })].  [fallback] is the node to
    show in place of the image (no node when it is left out); [className]
    is optional; [obj] holds the other properties of the props object.  In
    the [img] element the class comes after the spread, so it is the class
    of the element; the element is written with no children of its own, so
    its children are the ones that the spread brings. *)
Definition Avatar (fallback : list VNode) (className : option string)
           (obj : attrs) : VNode :=
  let props := rest_props obj in
  VElem "div"
    [ ("className",
       PCn [ Some "flex h-10 w-10 items-center justify-center overflow-hidden rounded-full bg-slate-200 text-sm font-semibold text-slate-600";
             className ]) ]
    (if truthy (lookup_attr "src" props)
     then [ VElem "img"
              (List.filter listed (spread props)
               ++ [ ("className",
                     PCn [ Some "h-full w-full object-cover";
                           class_arg (lookup_attr "className" props) ]) ])
              (child_nodes (lookup_attr "children" props)) ]
     else fallback).

(** A photo with an alternative text, and initials to fall back on. *)
Definition sample_photo : attrs :=
  [ ("src", AStr "https://example.com/a.png"); ("alt", AStr "Ada") ].

Definition sample_initials : list VNode := [ VText "AL" ].

(** The photo with a text between the tags of the avatar. *)
Definition sample_captioned : attrs :=
  sample_photo ++ [ ("children", AStr "Ada Lovelace") ].

End AvatarComponent.

(* ===================================================================== *)
(** * Reading the layout of a rendered table *)
(* ===================================================================== *)

Module Layout.

Import Dashboard.

(** The number of columns a cell takes: its [colSpan], or one. *)
Definition cell_span (cell : VNode) : nat :=
  match prop_of "colSpan" cell with
  | Some (PNum n) => n
  | _ => 1
  end.

(** The number of columns a row takes. *)
Definition row_width (row : VNode) : nat :=
  list_sum (List.map cell_span (children row)).

(** Two records that differ at most in their title. *)
Definition same_but_title (r r' : ImageRecord) : Prop :=
  page r = page r'
  /\ hubspot_folder r = hubspot_folder r'
  /\ hubspot_path r = hubspot_path r'
  /\ src r = src r'
  /\ alt r = alt r'
  /\ nearest_heading r = nearest_heading r'.

(** The sample record under another title. *)
Definition sample_retitled : ImageRecord :=
  mkImageRecord "https://example.com/about" EmptyString EmptyString
                "https://example.com/a.png" EmptyString "Portrait" "Team".

End Layout.


(* ===================================================================== *)
(** * Properties *)
(* ===================================================================== *)

(** ** The report schema *)

(** A record has a field for a key exactly when the key is a column of the
    report. *)
Lemma get_field_columns (r : ImageRecord) (key : string) :
  Schema.get_field r key = None <-> ~ In key Schema.report_columns.
Proof.
  unfold Schema.get_field, Schema.report_columns. cbn [In].
  repeat
    match goal with
    | |- context [String.eqb key ?c] =>
        let E := fresh "E" in
        destruct (String.eqb key c) eqn:E;
        [ apply String.eqb_eq in E; subst key; split;
          [ discriminate | intros H; exfalso; apply H; tauto ]
        | apply String.eqb_neq in E ]
    end.
  split; [| reflexivity ].
  intros _ H.
  repeat destruct H as [H | H]; try (symmetry in H; contradiction).
  exact H.
Qed.

(** C1: the record consumed by the dashboard has exactly the seven members
    page, hubspot_folder, hubspot_path, src, alt, title, nearest_heading, in
    the column order of the report file, each one required and of type
    string; reading a record by the report's column names yields its seven
    fields in that order, and a record has no field under any other key. *)
Theorem image_record_schema :
  List.map Schema.m_name Schema.ImageRecord_interface = Schema.report_columns
  /\ length Schema.ImageRecord_interface = 7
  /\ forallb Schema.string_only Schema.ImageRecord_interface = true
  /\ (forall r : ImageRecord,
        List.map (Schema.get_field r) Schema.report_columns =
        [ Some (page r); Some (hubspot_folder r); Some (hubspot_path r);
          Some (src r); Some (alt r); Some (title r);
          Some (nearest_heading r) ])
  /\ (forall (r : ImageRecord) (key : string),
        Schema.get_field r key = None <-> ~ In key Schema.report_columns).
Proof.
  split; [ reflexivity |]. split; [ reflexivity |].
  split; [ reflexivity |]. split; [ intros r; reflexivity |].
  exact get_field_columns.
Qed.

(** ** The orchestration wrapper *)

Section WrapperFacts.

Import Wrapper.

(** The commands that ran are an initial part of the script. *)
Lemma run_errexit_prefix (e : env) (cmds : list command) (n : nat) :
  exists rest, cmds = fst (run_errexit e n cmds) ++ rest.
Proof.
  revert n. induction cmds as [| c cmds IH]; intros n; cbn.
  - exists []. reflexivity.
  - destruct (Nat.eqb (e n c) 0).
    + destruct (IH (S n)) as [rest Hrest].
      destruct (run_errexit e (S n) cmds) as [tr code]; cbn in *.
      exists rest. congruence.
    + exists cmds. reflexivity.
Qed.

(** When every command succeeds, all of them run and the status is 0. *)
Lemma run_errexit_all_succeed (cmds : list command) (n : nat) :
  run_errexit all_succeed n cmds = (cmds, 0).
Proof.
  revert n. induction cmds as [| c cmds IH]; intros n; cbn; [reflexivity |].
  rewrite IH. reflexivity.
Qed.

(** C2: the wrapper runs exactly two programs, the crawl step first and the
    extract step second, with fixed arguments: mirror directory
    site_mirror, at most 50 pages, a delay of 1.5, and the fixed default
    site URL when no positional argument is given; when every command
    succeeds the whole script runs and exits with status 0. *)
Theorem wrapper_sequence (args : list string) :
  invocations (script args) = [ crawl_step args; extract_step ]
  /\ crawl_step args =
       Exec [ "python3"; "scripts/crawl_site.py"; SITE_URL args;
              "--output"; "site_mirror"; "--max-pages"; "50";
              "--delay"; "1.5" ]
  /\ extract_step =
       Exec [ "python3"; "scripts/extract_images.py"; "site_mirror";
              "--csv-out"; "analytics/ui/public/image-report.csv";
              "--verbose" ]
  /\ SITE_URL [] = "https://automation.broadcom.com/"
  /\ (forall u rest,
        SITE_URL (u :: rest) =
        if String.eqb u EmptyString
        then "https://automation.broadcom.com/" else u)
  /\ run all_succeed args = (script args, 0).
Proof.
  repeat split.
Qed.

(** One command of a script under [set -e]. *)
Lemma run_errexit_cons (e : env) (n : nat) (c : command)
      (cmds : list command) :
  run_errexit e n (c :: cmds) =
  if Nat.eqb (e n c) 0
  then (c :: fst (run_errexit e (S n) cmds), snd (run_errexit e (S n) cmds))
  else ([ c ], e n c).
Proof.
  cbn [run_errexit]. destruct (Nat.eqb (e n c) 0); [| reflexivity ].
  destruct (run_errexit e (S n) cmds); reflexivity.
Qed.

(** The three ways a run of the wrapper can go: the banner fails, the
    crawl step fails, or the rest of the script is entered. *)
Lemma run_cases (e : env) (args : list string) :
  (e 0 (step1_banner args) <> 0
   /\ run e args = ([ step1_banner args ], e 0 (step1_banner args)))
  \/ (e 1 (crawl_step args) <> 0
      /\ run e args =
         ([ step1_banner args; crawl_step args ], e 1 (crawl_step args)))
  \/ (e 1 (crawl_step args) = 0
      /\ run e args =
         (step1_banner args :: crawl_step args
            :: fst (run_errexit e 2 after_crawl),
          snd (run_errexit e 2 after_crawl))).
Proof.
  unfold run, script. rewrite run_errexit_cons.
  destruct (Nat.eqb (e 0 _) 0) eqn:E0.
  - rewrite run_errexit_cons.
    destruct (Nat.eqb (e 1 _) 0) eqn:E1.
    + right; right. apply Nat.eqb_eq in E1. split; [ exact E1 | reflexivity ].
    + right; left. apply Nat.eqb_neq in E1. split; [ exact E1 | reflexivity ].
  - left. apply Nat.eqb_neq in E0. split; [ exact E0 | reflexivity ].
Qed.

(** C3: if the crawl step exits with a non-zero status, the script exits
    with a non-zero status and the extract step is not run.  Whenever the
    extract step is run, the crawl step has run before it and has exited
    with status 0. *)
Theorem crawl_failure_aborts (e : env) (args : list string) :
  e 1 (crawl_step args) <> 0 ->
  snd (run e args) <> 0
  /\ ~ In extract_step (fst (run e args))
  /\ forall e' : env,
       In extract_step (fst (run e' args)) ->
       e' 1 (crawl_step args) = 0
       /\ exists pre post,
            fst (run e' args) = pre ++ crawl_step args :: post
            /\ In extract_step post.
Proof.
  intros Hfail.
  assert (Hb : forall a, extract_step <> step1_banner a)
    by (intros a; discriminate).
  assert (Hc : forall a, extract_step <> crawl_step a)
    by (intros a; discriminate).
  split; [| split ].
  - destruct (run_cases e args) as [[H0 ->] | [[H1 ->] | [H1 _]]];
      cbn [snd]; congruence.
  - destruct (run_cases e args) as [[H0 ->] | [[H1 ->] | [H1 _]]];
      cbn [fst]; [ | | congruence ].
    + intros [H | []]. exact (Hb _ (eq_sym H)).
    + intros [H | [H | []]];
        [ exact (Hb _ (eq_sym H)) | exact (Hc _ (eq_sym H)) ].
  - intros e' Hin.
    destruct (run_cases e' args) as [[H0 Hr] | [[H1 Hr] | [H1 Hr]]];
      rewrite Hr in Hin |- *; cbn [fst] in Hin |- *.
    + destruct Hin as [H | []]. destruct (Hb _ (eq_sym H)).
    + destruct Hin as [H | [H | []]];
        [ destruct (Hb _ (eq_sym H)) | destruct (Hc _ (eq_sym H)) ].
    + split; [ exact H1 |].
      exists [ step1_banner args ], (fst (run_errexit e' 2 after_crawl)).
      split; [ reflexivity |].
      destruct Hin as [H | [H | H]];
        [ destruct (Hb _ (eq_sym H)) | destruct (Hc _ (eq_sym H)) | exact H ].
Qed.

(** The crawl step fails with status 2 and nothing else fails: the script
    stops there. *)
Lemma crawl_failure_aborts_witness :
  snd (run (fails_at 1 2) []) <> 0
  /\ ~ In extract_step (fst (run (fails_at 1 2) []))
  /\ forall e' : env,
       In extract_step (fst (run e' [])) ->
       e' 1 (crawl_step []) = 0
       /\ exists pre post,
            fst (run e' []) = pre ++ crawl_step [] :: post
            /\ In extract_step post.
Proof.
  apply (crawl_failure_aborts (fails_at 1 2) []).
  cbn. discriminate.
Defined.

(** A run that ends with status 0 has run every command. *)
Lemma run_errexit_zero (e : env) (cmds : list command) (n : nat) :
  snd (run_errexit e n cmds) = 0 -> fst (run_errexit e n cmds) = cmds.
Proof.
  revert n. induction cmds as [| c cmds IH]; intros n; [ reflexivity |].
  rewrite run_errexit_cons.
  destruct (Nat.eqb (e n c) 0) eqn:E; cbn [fst snd].
  - intros H. rewrite (IH (S n) H). reflexivity.
  - apply Nat.eqb_neq in E. intros H. contradiction.
Qed.

(** X5: under set -e the commands that run are always an initial part of
    the script, in script order, and the script exits with status 0 only
    when all of its commands have run. *)
Theorem wrapper_initial_segment (e : env) (args : list string) :
  (exists rest, script args = fst (run e args) ++ rest)
  /\ (snd (run e args) = 0 -> fst (run e args) = script args).
Proof.
  split.
  - apply run_errexit_prefix.
  - apply run_errexit_zero.
Qed.

End WrapperFacts.

(** ** Strings *)

Lemma append_empty_r (s : string) : s +:+ EmptyString = s.
Proof.
  induction s as [| c s IH]; [ reflexivity |].
  change (String c (s +:+ EmptyString) = String c s). rewrite IH.
  reflexivity.
Qed.

(** ** The dashboard table *)

Section DashboardFacts.

Import Dashboard.

(** Reading a field of an allocated object yields the field and the same
    store. *)
Lemma bind_read {B} (h : heap) (image : loc) (r : ImageRecord)
      (field : ImageRecord -> string) (k : string -> Render B) :
  h !! image = Some r ->
  bind (read image field) k h = k (field r) h.
Proof.
  intros Hl. unfold bind, read. rewrite Hl. reflexivity.
Qed.

(** The row of a record at an index is the same whatever the store and
    the reference that holds the record; rendering it leaves the store as it
    is, and the row shows the record's fields. *)
Lemma render_row_spec (r : ImageRecord) (index : nat) :
  exists row,
    (forall (h : heap) (image : loc),
       h !! image = Some r -> render_row image index h = Some (row, h))
    /\ List.map text_content (children row) = shown r
    /\ prop_of "key" row = Some (PStr (row_key (page r) (src r) index))
    /\ links row = [ row_link r ].
Proof.
  eexists. split; [| split; [| split ] ].
  - intros h image Hl. unfold render_row.
    rewrite !(bind_read h image r) by exact Hl. reflexivity.
  - unfold shown, or_else, dash, Badge. cbn. rewrite !append_empty_r.
    reflexivity.
  - reflexivity.
  - reflexivity.
Qed.

Lemma deref_cons (h : heap) (image : loc) (images : list loc) :
  deref h (image :: images) =
  match h !! image with
  | Some r =>
      match deref h images with
      | Some rs => Some (r :: rs)
      | None => None
      end
  | None => None
  end.
Proof.
  unfold deref. cbn. destruct (h !! image); [| reflexivity ].
  cbn. destruct (mapM _ images); reflexivity.
Qed.

(** References that denote a non-empty list of records: the first one
    denotes the first record, the others the others. *)
Lemma deref_cons_inv (h : heap) (images : list loc) (r : ImageRecord)
      (rs : list ImageRecord) :
  deref h images = Some (r :: rs) ->
  exists image rest,
    images = image :: rest /\ h !! image = Some r /\ deref h rest = Some rs.
Proof.
  destruct images as [| image rest]; [ discriminate |].
  rewrite deref_cons.
  destruct (h !! image) as [r' |] eqn:Hl; [| discriminate ].
  destruct (deref h rest) as [rs' |] eqn:Hd; [| discriminate ].
  intros [= -> ->]. exists image, rest.
  split; [ reflexivity |]. split; [ exact Hl | exact Hd ].
Qed.

Lemma deref_nil_inv (h : heap) (images : list loc) :
  deref h images = Some [] -> images = [].
Proof.
  destruct images as [| image rest]; [ reflexivity |].
  rewrite deref_cons.
  destruct (h !! image); [| discriminate ].
  destruct (deref h rest); discriminate.
Qed.

(** The rows for a list of records, from index [i] on, are the same
    whatever the store and the references. *)
Lemma map_indexed_rows (rs : list ImageRecord) (i : nat) :
  exists rows,
    (forall (h : heap) (images : list loc),
       deref h images = Some rs ->
       map_indexed render_row i images h = Some (rows, h))
    /\ List.map (fun row => List.map text_content (children row)) rows
       = List.map shown rs
    /\ List.map (prop_of "key") rows
       = imap (fun j r => Some (PStr (row_key (page r) (src r) (i + j)))) rs
    /\ List.map links rows = List.map (fun r => [ row_link r ]) rs.
Proof.
  revert i. induction rs as [| r rs IH]; intros i.
  - exists []. split; [| repeat split ].
    intros h images Hd. rewrite (deref_nil_inv h images Hd). reflexivity.
  - destruct (render_row_spec r i) as (row & Hrow & Htxt & Hkey & Hlink).
    destruct (IH (S i)) as (rows & Hrows & Htxts & Hkeys & Hlinks).
    exists (row :: rows). split; [| split; [| split ] ].
    + intros h images Hd.
      destruct (deref_cons_inv h images r rs Hd)
        as (image & rest & -> & Hl & Hrest).
      cbn [map_indexed]. unfold bind at 1. rewrite (Hrow h image Hl).
      unfold bind at 1. rewrite (Hrows h rest Hrest). reflexivity.
    + cbn [List.map]. rewrite Htxt, Htxts. reflexivity.
    + cbn [List.map imap]. rewrite Hkey, Hkeys, Nat.add_0_r. f_equal.
      apply imap_ext. intros j r' _. cbn. rewrite Nat.add_succ_r.
      reflexivity.
    + cbn [List.map]. rewrite Hlink, Hlinks. reflexivity.
Qed.

(** The table for a list of records: one tree, whatever the store and the
    references; its head, and for a non-empty list its body. *)
Lemma image_table_spec (rs : list ImageRecord) :
  exists out,
    (forall (h : heap) (images : list loc),
       deref h images = Some rs -> ImageTable images h = Some (out, h))
    /\ head_cells out =
       [ [ "Page"; "HubSpot Folder"; "HubSpot Path"; "Section Heading";
           "Alt Text"; "Image" ] ]
    /\ (rs <> [] ->
        body_cells out = List.map shown rs
        /\ List.map (prop_of "key") (body_rows out)
           = imap (fun j r => Some (PStr (row_key (page r) (src r) j))) rs
        /\ List.map links (body_rows out)
           = List.map (fun r => [ row_link r ]) rs).
Proof.
  destruct rs as [| r rs].
  - eexists. split; [| split ].
    + intros h images Hd. rewrite (deref_nil_inv h images Hd). reflexivity.
    + reflexivity.
    + congruence.
  - destruct (map_indexed_rows (r :: rs) 0)
      as (rows & Hrows & Htxt & Hkeys & Hlinks).
    eexists. split; [| split ].
    + intros h images Hd.
      destruct (deref_cons_inv h images r rs Hd)
        as (image & rest & -> & _ & _).
      unfold ImageTable. cbn [length Nat.eqb].
      unfold bind at 1. rewrite (Hrows h (image :: rest) Hd). reflexivity.
    + reflexivity.
    + intros _. unfold body_cells, body_rows. cbn. rewrite app_nil_r.
      split; [ exact Htxt |]. split; [ exact Hkeys | exact Hlinks ].
Qed.

(** C8: rendering the table returns the store it was given, so every field
    of every record of the images prop is as before; and the rendered tree
    is the same for every store and every images prop that denote the same
    records. *)
Theorem image_table_pure (h : heap) (images : list loc)
        (rs : list ImageRecord) :
  deref h images = Some rs ->
  exists out,
    ImageTable images h = Some (out, h)
    /\ forall (h' : heap) (images' : list loc),
         deref h' images' = Some rs ->
         ImageTable images' h' = Some (out, h').
Proof.
  intros Hd. destruct (image_table_spec rs) as (out & Hall & _).
  exists out. split; [ exact (Hall h images Hd) | exact Hall ].
Qed.

(** C10: for a non-empty images prop, the body of the table has one row
    per record, and the cells of a row show, in order: the page; the
    folder, or a dash when it is empty; the path as it is, empty when it is
    empty; the heading, or a dash when it is empty; the alt text, or a dash
    when it is empty; and the link label. *)
Theorem image_table_cells (h : heap) (images : list loc)
        (rs : list ImageRecord) :
  images <> [] ->
  deref h images = Some rs ->
  exists out,
    ImageTable images h = Some (out, h)
    /\ body_cells out =
       List.map
         (fun r =>
            [ page r;
              (if String.eqb (hubspot_folder r) EmptyString
               then "—" else hubspot_folder r);
              hubspot_path r;
              (if String.eqb (nearest_heading r) EmptyString
               then "—" else nearest_heading r);
              (if String.eqb (alt r) EmptyString then "—" else alt r);
              "Open" ])
         rs.
Proof.
  intros Hne Hd. destruct (image_table_spec rs) as (out & Hall & _ & Hbody).
  exists out. split; [ exact (Hall h images Hd) |].
  apply Hbody. intros ->. apply Hne. exact (deref_nil_inv h images Hd).
Qed.

(** A store with one record, shown twice. *)
Lemma image_table_pure_witness :
  exists out,
    ImageTable [ 0; 0 ] sample_heap = Some (out, sample_heap)
    /\ forall (h' : heap) (images' : list loc),
         deref h' images' = Some [ sample_record; sample_record ] ->
         ImageTable images' h' = Some (out, h').
Proof.
  apply (image_table_pure sample_heap [ 0; 0 ]
                          [ sample_record; sample_record ]).
  reflexivity.
Defined.

(** A record with an empty folder, path and alt text. *)
Lemma image_table_cells_witness :
  exists out,
    ImageTable [ 0 ] sample_heap = Some (out, sample_heap)
    /\ body_cells out =
       [ [ "https://example.com/about"; "—"; EmptyString; "Team"; "—";
           "Open" ] ].
Proof.
  apply (image_table_cells sample_heap [ 0 ] [ sample_record ]).
  - discriminate.
  - reflexivity.
Defined.

(** X1: with no images, the body of the table is a single row with a
    single cell that spans all six columns and reads "No images matched the
    current filters."; the store is returned as it was. *)
Theorem image_table_empty (h : heap) :
  exists out,
    ImageTable [] h = Some (out, h)
    /\ body_cells out = [ [ "No images matched the current filters." ] ]
    /\ List.map (fun row => List.map (prop_of "colSpan") (children row))
                (body_rows out)
       = [ [ Some (PNum 6) ] ].
Proof.
  eexists. split; [ reflexivity |]. split; reflexivity.
Qed.

(** X2: whatever the images, the head of the table is one row of six
    cells: the labels of the five columns in their order, then Image. *)
Theorem image_table_header (h : heap) (images : list loc)
        (rs : list ImageRecord) :
  deref h images = Some rs ->
  exists out,
    ImageTable images h = Some (out, h)
    /\ head_cells out =
       [ [ "Page"; "HubSpot Folder"; "HubSpot Path"; "Section Heading";
           "Alt Text"; "Image" ] ].
Proof.
  intros Hd. destruct (image_table_spec rs) as (out & Hall & Hhead & _).
  exists out. split; [ exact (Hall h images Hd) | exact Hhead ].
Qed.

Lemma image_table_header_witness :
  exists out,
    ImageTable [ 0 ] sample_heap = Some (out, sample_heap)
    /\ head_cells out =
       [ [ "Page"; "HubSpot Folder"; "HubSpot Path"; "Section Heading";
           "Alt Text"; "Image" ] ].
Proof.
  apply (image_table_header sample_heap [ 0 ] [ sample_record ]).
  reflexivity.
Defined.

(** X3: for a non-empty images prop, the row at index i of the body has
    the key made of the record's page, its src and i, joined by dashes, and
    holds one link, to the record's src, opened in a new tab with
    rel noreferrer. *)
Theorem image_table_row_links (h : heap) (images : list loc)
        (rs : list ImageRecord) :
  images <> [] ->
  deref h images = Some rs ->
  exists out,
    ImageTable images h = Some (out, h)
    /\ List.map (prop_of "key") (body_rows out) =
       imap (fun i r =>
               Some (PStr (page r +:+ "-" +:+ src r +:+ "-" +:+ pretty i)))
            rs
    /\ List.map links (body_rows out) =
       List.map
         (fun r =>
            [ (Some (PStr (src r)), Some (PStr "_blank"),
               Some (PStr "noreferrer")) ])
         rs.
Proof.
  intros Hne Hd. destruct (image_table_spec rs) as (out & Hall & _ & Hbody).
  exists out. split; [ exact (Hall h images Hd) |].
  apply Hbody. intros ->. apply Hne. exact (deref_nil_inv h images Hd).
Qed.

Lemma image_table_row_links_witness :
  exists out,
    ImageTable [ 0; 0 ] sample_heap = Some (out, sample_heap)
    /\ List.map (prop_of "key") (body_rows out) =
       [ Some (PStr "https://example.com/about-https://example.com/a.png-0");
         Some (PStr "https://example.com/about-https://example.com/a.png-1") ]
    /\ List.map links (body_rows out) =
       [ [ (Some (PStr "https://example.com/a.png"), Some (PStr "_blank"),
            Some (PStr "noreferrer")) ];
         [ (Some (PStr "https://example.com/a.png"), Some (PStr "_blank"),
            Some (PStr "noreferrer")) ] ].
Proof.
  apply (image_table_row_links sample_heap [ 0; 0 ]
                               [ sample_record; sample_record ]).
  - discriminate.
  - reflexivity.
Defined.

End DashboardFacts.

(** ** Canonical URLs *)

Section StrFacts.

Import Str.

Lemma lower_ascii_idem (c : ascii) :
  lower_ascii (lower_ascii c) = lower_ascii c.
Proof.
  destruct c as [[] [] [] [] [] [] [] []]; reflexivity.
Qed.

Lemma lower_idem (s : string) : lower (lower s) = lower s.
Proof.
  induction s as [| c s IH]; cbn [lower]; [ reflexivity |].
  rewrite lower_ascii_idem, IH. reflexivity.
Qed.

(** Stripping from the right is idempotent. *)
Lemma rstrip_by_idem (p : ascii -> bool) (s : string) :
  rstrip_by p (rstrip_by p s) = rstrip_by p s.
Proof.
  induction s as [| c s IH]; cbn [rstrip_by]; [ reflexivity |].
  destruct (p c && String.eqb (rstrip_by p s) EmptyString) eqn:E;
    [ reflexivity |].
  cbn [rstrip_by]. rewrite IH, E. reflexivity.
Qed.

(** One more slash at the end is stripped with the others. *)
Lemma rstrip_slash_snoc (s : string) :
  rstrip_by is_slash (s +:+ "/") = rstrip_by is_slash s.
Proof.
  induction s as [| c s IH]; [ reflexivity |].
  change (String c s +:+ "/") with (String c (s +:+ "/")).
  cbn [rstrip_by]. rewrite IH. reflexivity.
Qed.

End StrFacts.

Section UrlFacts.

Import Url.

Lemma normalize_path_idem (p : string) :
  normalize_path (normalize_path p) = normalize_path p.
Proof.
  unfold normalize_path.
  destruct (String.eqb (Str.rstrip_by Str.is_slash p) EmptyString) eqn:E.
  - reflexivity.
  - rewrite rstrip_by_idem, E. reflexivity.
Qed.

Lemma normalize_path_slash (p : string) :
  normalize_path (p +:+ "/") = normalize_path p.
Proof.
  unfold normalize_path. rewrite rstrip_slash_snoc. reflexivity.
Qed.

(** An absolute reference resolves to itself, whatever the base. *)
Lemma resolve_absolute (u base : url) : resolve (absolute u) base = u.
Proof.
  destruct u; reflexivity.
Qed.

Lemma canonical_idem (u : url) :
  canonical (key_url (canonical u)) = canonical u.
Proof.
  unfold canonical, key_url; cbn.
  rewrite !lower_idem, normalize_path_idem. reflexivity.
Qed.

(** C7: normalizing the key of a link again, against any base, yields the
    same key; two URLs that differ only in their fragment have the same
    key, and so have a URL and the same URL with one more slash at the end
    of its path, the bare path and the root path included. *)
Theorem canonicalization_idempotent :
  (forall (raw : option reference) (base base' : url),
     key_of raw base ≫= (fun k => key_of (Some (absolute (key_url k))) base')
     = key_of raw base)
  /\ (forall (u base : url) (f g : option string),
        key_of (Some (absolute (with_fragment u f))) base
        = key_of (Some (absolute (with_fragment u g))) base)
  /\ (forall (u base : url),
        key_of (Some (absolute (with_path u (path u +:+ "/")))) base
        = key_of (Some (absolute u)) base)
  /\ canonical (mkUrl "https" "example.com" EmptyString None None)
     = canonical (mkUrl "https" "example.com" "/" None None).
Proof.
  split; [| split; [| split ] ].
  - intros [r |] base base'; [| reflexivity ].
    unfold key_of, normalize. cbn -[resolve canonical absolute].
    rewrite resolve_absolute, canonical_idem. reflexivity.
  - intros u base f g. unfold key_of, normalize.
    cbn -[resolve canonical absolute].
    rewrite !resolve_absolute. reflexivity.
  - intros u base. unfold key_of, normalize.
    cbn -[resolve canonical absolute].
    rewrite !resolve_absolute. unfold canonical, with_path. cbn.
    rewrite normalize_path_slash. reflexivity.
  - reflexivity.
Qed.

End UrlFacts.

(** ** Frontier, Visited Set and Crawler *)

Section CrawlFacts.

Import Url Crawl.

Variable fetch : url -> option string.
Variable scan_links : string -> list (option reference).
Variable cfg : CrawlConfig.

Local Abbreviation enqueue := (Crawl.enqueue cfg).
Local Abbreviation discover := (Crawl.discover cfg).
Local Abbreviation init := (Crawl.init cfg).
Local Abbreviation step := (Crawl.step fetch scan_links cfg).
Local Abbreviation loop := (Crawl.loop fetch scan_links cfg).
Local Abbreviation crawl := (Crawl.crawl fetch scan_links cfg).
Local Abbreviation reachable := (Crawl.reachable fetch scan_links cfg).
Local Abbreviation seed_key := (Crawl.seed_key cfg).
Local Abbreviation same_host := (Crawl.same_host cfg).
Local Abbreviation on_seed_host := (Crawl.on_seed_host cfg).
Local Abbreviation crawl_inv := (Crawl.crawl_inv cfg).

Lemma empty_state_inv : crawl_inv empty_state.
Proof.
  split; cbn; try constructor.
  rewrite size_empty. lia.
Qed.

(** The two ways [enqueue] can go. *)
Lemma enqueue_cases (c : FrontierEntry) (st : state) :
  enqueue c st = st
  \/ (k_host (fe_url c) = k_host seed_key
      /\ (fe_url c ∉ visited st)
      /\ size (visited st) < maxPages cfg
      /\ enqueue c st =
         mkState (frontier st ++ [ c ]) ({[ fe_url c ]} ∪ visited st)
                 (mirror st) (fetched st) (failed st)).
Proof.
  unfold Crawl.enqueue.
  destruct (bool_decide (k_host (fe_url c) = k_host seed_key)) eqn:Eh;
    [| left; reflexivity ].
  destruct (bool_decide (fe_url c ∈ visited st)) eqn:Ev;
    [ left; reflexivity |].
  destruct (Nat.ltb (size (visited st)) (maxPages cfg)) eqn:El;
    [| left; reflexivity ].
  right. apply bool_decide_eq_true in Eh. apply bool_decide_eq_false in Ev.
  apply Nat.ltb_lt in El. repeat split; assumption.
Qed.

Lemma enqueue_inv (c : FrontierEntry) (st : state) :
  fe_url c = canonical (fe_raw c) ->
  crawl_inv st -> crawl_inv (enqueue c st).
Proof.
  intros Hkey [Hb Hc Hf Hd Hm].
  destruct (enqueue_cases c st) as [-> | (Hh & Hv & Hl & ->)];
    [ split; assumption |].
  assert (Hs : size ({[ fe_url c ]} ∪ visited st) = S (size (visited st))).
  { rewrite size_union by set_solver. rewrite size_singleton. reflexivity. }
  split; cbn.
  - rewrite Hs. lia.
  - rewrite Hs, length_app. cbn. lia.
  - apply Forall_app. split; [ assumption |].
    constructor; [ split; [ exact Hkey | exact Hh ] |]. constructor.
  - assumption.
  - assumption.
Qed.

Lemma discover_inv (base : url) (st : state) (link : option reference) :
  crawl_inv st -> crawl_inv (discover base st link).
Proof.
  intros Hinv. unfold Crawl.discover.
  destruct (normalize link base) as [[k abs] |] eqn:En; [| exact Hinv ].
  apply enqueue_inv; [| exact Hinv ].
  destruct link as [r |]; [| discriminate ].
  cbn in En. injection En as <- <-. reflexivity.
Qed.

Lemma discover_all_inv (base : url) (links : list (option reference))
      (st : state) :
  crawl_inv st -> crawl_inv (fold_left (discover base) links st).
Proof.
  revert st. induction links as [| l links IH]; intros st Hinv; cbn.
  - exact Hinv.
  - apply IH, discover_inv, Hinv.
Qed.

(** Enqueueing moves nothing out of the fetched list. *)
Lemma enqueue_fetched (c : FrontierEntry) (st : state) :
  fetched (enqueue c st) = fetched st.
Proof.
  destruct (enqueue_cases c st) as [-> | (_ & _ & _ & ->)]; reflexivity.
Qed.

Lemma discover_all_fetched (base : url) (links : list (option reference))
      (st : state) :
  fetched (fold_left (discover base) links st) = fetched st.
Proof.
  revert st. induction links as [| l links IH]; intros st; cbn;
    [ reflexivity |].
  rewrite IH. unfold Crawl.discover.
  destruct (normalize l base) as [[k abs] |]; [| reflexivity ].
  apply enqueue_fetched.
Qed.

(** With the budget used up, enqueueing changes nothing. *)
Lemma enqueue_full (c : FrontierEntry) (st : state) :
  size (visited st) = maxPages cfg -> enqueue c st = st.
Proof.
  intros Hfull.
  destruct (enqueue_cases c st) as [-> | (_ & _ & Hl & _)];
    [ reflexivity | lia ].
Qed.

Lemma discover_all_full (base : url) (links : list (option reference))
      (st : state) :
  size (visited st) = maxPages cfg ->
  fold_left (discover base) links st = st.
Proof.
  intros Hfull. induction links as [| l links IH]; cbn; [ reflexivity |].
  assert (Hd : discover base st l = st).
  { unfold Crawl.discover.
    destruct (normalize l base) as [[k abs] |]; [| reflexivity ].
    apply enqueue_full, Hfull. }
  rewrite Hd. exact IH.
Qed.

Lemma init_inv : crawl_inv init.
Proof.
  apply enqueue_inv; [ reflexivity | apply empty_state_inv ].
Qed.

Lemma step_inv (st st' : state) :
  crawl_inv st -> step st = Next st' -> crawl_inv st'.
Proof.
  intros [Hb Hc Hf Hd Hm]. unfold Crawl.step.
  destruct (frontier st) as [| e rest] eqn:Ef; [ discriminate |].
  apply Forall_cons in Hf as [He Hrest]. cbn in Hc.
  destruct (fetch (fe_raw e)) as [body |].
  - intros [= <-]. apply discover_all_inv. split; cbn.
    + exact Hb.
    + rewrite length_app. cbn. lia.
    + exact Hrest.
    + apply Forall_app. split; [ exact Hd |]. constructor; [ exact He |].
      constructor.
    + apply Forall_app. split; [ exact Hm |]. constructor; [ exact He |].
      constructor.
  - destruct (fetched st) as [| e0 done] eqn:Efd; [ discriminate |].
    intros [= <-]. split; cbn.
    + exact Hb.
    + rewrite length_app. cbn in *. lia.
    + exact Hrest.
    + change (Forall same_host ((e0 :: done) ++ [ e ])).
      apply Forall_app. split; [ exact Hd |]. constructor; [ exact He |].
      constructor.
    + exact Hm.
Qed.

Lemma reachable_inv (st : state) : reachable st -> crawl_inv st.
Proof.
  induction 1 as [| st st' _ IH Hstep].
  - apply init_inv.
  - exact (step_inv st st' IH Hstep).
Qed.

(** Each turn of the loop issues one fetch. *)
Lemma step_fetched (st st' : state) :
  step st = Next st' -> length (fetched st') = S (length (fetched st)).
Proof.
  unfold Crawl.step.
  destruct (frontier st) as [| e rest]; [ discriminate |].
  destruct (fetch (fe_raw e)) as [body |].
  - intros [= <-]. rewrite discover_all_fetched. cbn.
    rewrite length_app. cbn. lia.
  - destruct (fetched st) as [| e0 done] eqn:Efd; [ discriminate |].
    intros [= <-]. cbn. rewrite length_app. cbn. lia.
Qed.

Lemma step_stop (st : state) : step st = Stop <-> frontier st = [].
Proof.
  unfold Crawl.step. destruct (frontier st) as [| e rest].
  - split; reflexivity.
  - split; [| discriminate ].
    destruct (fetch (fe_raw e)); [ discriminate |].
    destruct (fetched st); discriminate.
Qed.

(** The loop never runs out of fuel when it has one turn more than the
    fetches the budget still allows. *)
Lemma loop_terminates (fuel : nat) (st : state) :
  crawl_inv st ->
  maxPages cfg < fuel + length (fetched st) ->
  loop fuel st <> OutOfFuel.
Proof.
  revert st. induction fuel as [| fuel IH]; intros st Hinv Hfuel.
  - destruct Hinv as [Hb Hc _ _ _]. cbn in Hfuel. lia.
  - cbn [Crawl.loop]. destruct (step st) as [| | st'] eqn:Es;
      [ discriminate | discriminate |].
    apply IH.
    + exact (step_inv st st' Hinv Es).
    + rewrite (step_fetched st st' Es). lia.
Qed.

Lemma loop_finished (fuel : nat) (st final : state) :
  reachable st -> loop fuel st = Finished final ->
  reachable final /\ frontier final = [].
Proof.
  revert st. induction fuel as [| fuel IH]; intros st Hr; cbn [Crawl.loop];
    [ discriminate |].
  destruct (step st) as [| | st'] eqn:Es.
  - intros [= <-]. split; [ exact Hr |]. apply step_stop, Es.
  - discriminate.
  - apply IH. exact (reach_step _ _ _ st st' Hr Es).
Qed.

(** With the budget used up, a turn only takes the head off the frontier. *)
Lemma step_full (st st' : state) :
  size (visited st) = maxPages cfg ->
  step st = Next st' ->
  visited st' = visited st /\ frontier st' = tail (frontier st).
Proof.
  intros Hfull. unfold Crawl.step.
  destruct (frontier st) as [| e rest]; [ discriminate |].
  destruct (fetch (fe_raw e)) as [body |].
  - intros [= <-]. rewrite discover_all_full by exact Hfull.
    split; reflexivity.
  - destruct (fetched st) as [| e0 done]; [ discriminate |].
    intros [= <-]. split; reflexivity.
Qed.

(** Enqueueing adds at the end of the frontier, and leaves the Mirror
    Store and the record of failures alone. *)
Lemma enqueue_frontier (c : FrontierEntry) (st : state) :
  exists new, frontier (enqueue c st) = frontier st ++ new.
Proof.
  destruct (enqueue_cases c st) as [-> | (_ & _ & _ & ->)].
  - exists []. symmetry. apply app_nil_r.
  - exists [ c ]. reflexivity.
Qed.

Lemma enqueue_stores (c : FrontierEntry) (st : state) :
  mirror (enqueue c st) = mirror st /\ failed (enqueue c st) = failed st.
Proof.
  destruct (enqueue_cases c st) as [-> | (_ & _ & _ & ->)];
    split; reflexivity.
Qed.

Lemma discover_all_frontier (base : url) (links : list (option reference))
      (st : state) :
  exists new, frontier (fold_left (discover base) links st)
              = frontier st ++ new.
Proof.
  revert st. induction links as [| l links IH]; intros st; cbn.
  - exists []. symmetry. apply app_nil_r.
  - destruct (IH (discover base st l)) as [new Hnew].
    assert (Hone : exists one, frontier (discover base st l)
                               = frontier st ++ one).
    { unfold Crawl.discover.
      destruct (normalize l base) as [[k abs] |];
        [ apply enqueue_frontier |].
      exists []. symmetry. apply app_nil_r. }
    destruct Hone as [one Hone]. exists (one ++ new).
    rewrite Hnew, Hone. symmetry. apply List.app_assoc.
Qed.

Lemma discover_all_stores (base : url) (links : list (option reference))
      (st : state) :
  mirror (fold_left (discover base) links st) = mirror st
  /\ failed (fold_left (discover base) links st) = failed st.
Proof.
  revert st. induction links as [| l links IH]; intros st; cbn;
    [ split; reflexivity |].
  destruct (IH (discover base st l)) as [Hm Hf]. rewrite Hm, Hf.
  unfold Crawl.discover.
  destruct (normalize l base) as [[k abs] |]; [| split; reflexivity ].
  apply enqueue_stores.
Qed.

(** A turn that goes on has fetched the head of the frontier, and has added
    to the frontier at its end only. *)
Lemma step_next (st st' : state) :
  step st = Next st' ->
  exists e rest new,
    frontier st = e :: rest
    /\ frontier st' = rest ++ new
    /\ fetched st' = fetched st ++ [ e ].
Proof.
  unfold Crawl.step.
  destruct (frontier st) as [| e rest]; [ discriminate |].
  destruct (fetch (fe_raw e)) as [body |].
  - intros [= <-].
    destruct (discover_all_frontier (fe_raw e) (scan_links body)
                (mkState rest (visited st)
                   (mirror st ++ [ mkPage (fe_url e) (fe_raw e) body ])
                   (fetched st ++ [ e ]) (failed st))) as [new Hnew].
    exists e, rest, new. split; [ reflexivity |].
    split; [ exact Hnew |]. apply discover_all_fetched.
  - destruct (fetched st) as [| e0 done] eqn:Efd; [ discriminate |].
    intros [= <-]. exists e, rest, []. split; [ reflexivity |].
    split; [ symmetry; apply app_nil_r | reflexivity ].
Qed.

(** The budget allows a seed: the crawl starts with the seed in the
    frontier.  It allows none: the crawl starts with nothing to do. *)
Lemma init_positive :
  0 < maxPages cfg ->
  init = mkState [ mkEntry seed_key (seedURL cfg) ] ({[ seed_key ]} ∪ ∅)
                 [] [] [].
Proof.
  intros Hpos. unfold Crawl.init, Crawl.enqueue.
  cbn [fe_url visited frontier mirror fetched failed empty_state].
  rewrite bool_decide_eq_true_2 by reflexivity.
  rewrite bool_decide_eq_false_2 by set_solver.
  rewrite size_empty.
  destruct (Nat.ltb_spec 0 (maxPages cfg)); [ reflexivity | lia ].
Qed.

Lemma init_zero : maxPages cfg = 0 -> init = empty_state.
Proof.
  intros Hzero. unfold Crawl.init.
  destruct (enqueue_cases (mkEntry seed_key (seedURL cfg)) empty_state)
    as [-> | (_ & _ & Hl & _)]; [ reflexivity |].
  cbn in Hl. rewrite size_empty in Hl. lia.
Qed.

(** Only the first fetch of a crawl can be fatal. *)
Lemma step_abort (st : state) : step st = Abort -> fetched st = [].
Proof.
  unfold Crawl.step.
  destruct (frontier st) as [| e rest]; [ discriminate |].
  destruct (fetch (fe_raw e)); [ discriminate |].
  destruct (fetched st); [ reflexivity | discriminate ].
Qed.

Lemma loop_not_fatal (fuel : nat) (st : state) :
  fetched st <> [] -> loop fuel st <> Fatal.
Proof.
  revert st. induction fuel as [| fuel IH]; intros st Hne;
    cbn [Crawl.loop]; [ discriminate |].
  destruct (step st) as [| | st'] eqn:Es.
  - discriminate.
  - apply step_abort in Es. contradiction.
  - apply IH. destruct (step_next st st' Es) as (e & rest & new & _ & _ & ->).
    intros Hnil. apply app_eq_nil in Hnil as [_ Hnil]. discriminate Hnil.
Qed.

(** A crawl fails fatally exactly when the fetch of its seed fails. *)
Lemma crawl_fatal :
  crawl = Fatal <-> 0 < maxPages cfg /\ fetch (seedURL cfg) = None.
Proof.
  unfold Crawl.crawl. destruct (Nat.eq_dec (maxPages cfg) 0) as [Hz | Hnz].
  - rewrite (init_zero Hz). cbn [Crawl.loop]. cbn.
    split; [ discriminate | lia ].
  - assert (Hpos : 0 < maxPages cfg) by lia.
    rewrite (init_positive Hpos). cbn [Crawl.loop]. unfold Crawl.step at 1.
    cbn [frontier fetched fe_raw].
    destruct (fetch (seedURL cfg)) as [body |] eqn:Ef.
    + split; [| intros [_ Hnone]; discriminate Hnone ].
      intros Hfatal. exfalso. revert Hfatal. apply loop_not_fatal.
      rewrite discover_all_fetched. cbn. discriminate.
    + split; [ intros _; split; [ exact Hpos | reflexivity ] | reflexivity ].
Qed.

(** Every state of a crawl is on the way from its start to its end. *)
Lemma reachable_loop (st final : state) :
  reachable st -> crawl = Finished final ->
  exists fuel, loop fuel st = Finished final.
Proof.
  intros Hr Hfin. induction Hr as [| st st' _ IH Hstep].
  - eexists. exact Hfin.
  - destruct IH as [[| fuel] Hl]; [ discriminate Hl |].
    cbn [Crawl.loop] in Hl. rewrite Hstep in Hl. exists fuel. exact Hl.
Qed.

(** The entries in the frontier are fetched next, in their order. *)
Lemma loop_fetches (fuel : nat) (st final : state) :
  loop fuel st = Finished final ->
  exists later, fetched final = fetched st ++ frontier st ++ later.
Proof.
  revert st. induction fuel as [| fuel IH]; intros st; cbn [Crawl.loop];
    [ discriminate |].
  destruct (step st) as [| | st'] eqn:Es.
  - intros [= <-]. apply step_stop in Es. rewrite Es. exists [].
    rewrite !app_nil_r. reflexivity.
  - discriminate.
  - intros Hl. destruct (IH st' Hl) as [later Hlater].
    destruct (step_next st st' Es) as (e & rest & new & Hf & Hf' & Hd).
    exists (new ++ later). rewrite Hlater, Hf, Hf', Hd.
    rewrite <- !List.app_assoc. reflexivity.
Qed.

(** With the budget used up, they are all that is still fetched. *)
Lemma loop_fetches_full (fuel : nat) (st final : state) :
  size (visited st) = maxPages cfg ->
  loop fuel st = Finished final ->
  fetched final = fetched st ++ frontier st.
Proof.
  revert st. induction fuel as [| fuel IH]; intros st Hfull;
    cbn [Crawl.loop]; [ discriminate |].
  destruct (step st) as [| | st'] eqn:Es.
  - intros [= <-]. apply step_stop in Es. rewrite Es, app_nil_r.
    reflexivity.
  - discriminate.
  - intros Hl.
    destruct (step_full st st' Hfull Es) as [Hv Hf'].
    destruct (step_next st st' Es) as (e & rest & new & Hf & _ & Hd).
    assert (Hfull' : size (visited st') = maxPages cfg)
      by (rewrite Hv; exact Hfull).
    rewrite (IH st' Hfull' Hl), Hf', Hd, Hf. cbn [tail].
    rewrite <- List.app_assoc. reflexivity.
Qed.

(** What is settled stays settled while the Mirror Store and the record of
    failures grow. *)
Lemma settled_grows (st st' : state) (e : FrontierEntry) :
  (forall p, p ∈ mirror st -> p ∈ mirror st') ->
  (forall x, x ∈ failed st -> x ∈ failed st') ->
  Crawl.settled fetch st e -> Crawl.settled fetch st' e.
Proof.
  intros Hm Hf. unfold Crawl.settled.
  destruct (fetch (fe_raw e)); [ apply Hm | apply Hf ].
Qed.

(** Every entry fetched so far has its page in the Mirror Store, or its
    failure on record. *)
Lemma reachable_settled (st : state) :
  reachable st -> Forall (Crawl.settled fetch st) (fetched st).
Proof.
  induction 1 as [| st st' _ IH Hstep].
  - unfold Crawl.init. rewrite enqueue_fetched. constructor.
  - revert Hstep. unfold Crawl.step.
    destruct (frontier st) as [| e rest]; [ discriminate |].
    destruct (fetch (fe_raw e)) as [body |] eqn:Ef.
    + intros [= <-].
      destruct (discover_all_stores (fe_raw e) (scan_links body)
                  (mkState rest (visited st)
                     (mirror st ++ [ mkPage (fe_url e) (fe_raw e) body ])
                     (fetched st ++ [ e ]) (failed st))) as [Hm Hf].
      rewrite discover_all_fetched. cbn [fetched mirror failed] in *.
      apply Forall_app. split.
      * eapply Forall_impl; [ exact IH |]. intros e0.
        apply settled_grows.
        -- intros p Hp. rewrite Hm. apply elem_of_app. left. exact Hp.
        -- intros x Hx. rewrite Hf. exact Hx.
      * constructor; [| constructor ]. unfold Crawl.settled.
        rewrite Ef, Hm. apply elem_of_app. right. apply list_elem_of_singleton.
        reflexivity.
    + destruct (fetched st) as [| e0 done] eqn:Efd; [ discriminate |].
      intros [= <-]. cbn [fetched mirror failed].
      change (Forall
                (Crawl.settled fetch
                   (mkState rest (visited st) (mirror st)
                      ((e0 :: done) ++ [ e ]) (failed st ++ [ e ])))
                ((e0 :: done) ++ [ e ])).
      apply Forall_app. split.
      * eapply Forall_impl; [ exact IH |]. intros e1.
        apply settled_grows.
        -- intros p Hp. exact Hp.
        -- intros x Hx. cbn [failed]. apply elem_of_app. left. exact Hx.
      * constructor; [| constructor ]. unfold Crawl.settled.
        rewrite Ef. cbn [failed]. apply elem_of_app. right.
        apply list_elem_of_singleton. reflexivity.
Qed.

(** C4, as the model has it: in every state of every crawl the Visited Set
    holds at most maxPages keys.  The loop stops exactly at an empty
    frontier, and the crawl fails fatally exactly when the fetch of the
    seed fails.  Once the Visited Set is full a turn enqueues nothing: it
    takes the next entry off the frontier and fetches it, so that the
    entries then in the frontier are exactly the ones still fetched, each
    one ending in the Mirror Store or on the record of failures.  Every
    crawl ends, within maxPages fetches, with the frontier empty or with
    the fatal failure of the seed fetch. *)
Theorem visited_within_budget :
  (forall st, reachable st -> size (visited st) <= maxPages cfg)
  /\ (forall st, step st = Stop <-> frontier st = [])
  /\ (crawl = Fatal <-> 0 < maxPages cfg /\ fetch (seedURL cfg) = None)
  /\ (forall st st',
        size (visited st) = maxPages cfg ->
        step st = Next st' ->
        visited st' = visited st
        /\ frontier st' = tail (frontier st)
        /\ exists e, frontier st = e :: frontier st'
                     /\ fetched st' = fetched st ++ [ e ])
  /\ crawl <> OutOfFuel
  /\ (forall final,
        crawl = Finished final ->
        reachable final
        /\ frontier final = []
        /\ length (fetched final) <= maxPages cfg)
  /\ (forall st final,
        reachable st -> crawl = Finished final ->
        exists later,
          fetched final = fetched st ++ frontier st ++ later
          /\ (size (visited st) = maxPages cfg -> later = []))
  /\ (forall st,
        reachable st -> Forall (Crawl.settled fetch st) (fetched st)).
Proof.
  split; [| split; [| split; [| split; [| split; [| split; [| split ] ] ] ] ] ].
  - intros st Hr. apply reachable_inv, Hr.
  - exact step_stop.
  - exact crawl_fatal.
  - intros st st' Hfull Es.
    destruct (step_full st st' Hfull Es) as [Hv Hf'].
    destruct (step_next st st' Es) as (e & rest & new & Hf & _ & Hd).
    split; [ exact Hv |]. split; [ exact Hf' |].
    exists e. rewrite Hf', Hf. split; [ reflexivity | exact Hd ].
  - unfold Crawl.crawl. apply loop_terminates; [ apply init_inv | lia ].
  - intros final Hfin. unfold Crawl.crawl in Hfin.
    destruct (loop_finished _ _ _ (reach_init _ _ _) Hfin) as [Hr Hf].
    split; [ exact Hr |]. split; [ exact Hf |].
    destruct (reachable_inv final Hr) as [Hb Hc _ _ _]. lia.
  - intros st final Hr Hfin.
    destruct (reachable_loop st final Hr Hfin) as [fuel Hl].
    destruct (loop_fetches fuel st final Hl) as [later Hlater].
    exists later. split; [ exact Hlater |].
    intros Hfull. rewrite (loop_fetches_full fuel st final Hfull Hl) in Hlater.
    rewrite <- (app_nil_r (frontier st)) in Hlater at 1.
    apply app_inv_head in Hlater. apply app_inv_head in Hlater.
    symmetry. exact Hlater.
  - exact reachable_settled.
Qed.

(** An entry of a crawl is fetched from a URL on the host of the seed. *)
Lemma same_host_raw (e : FrontierEntry) :
  same_host e -> on_seed_host (fe_raw e).
Proof.
  intros [Hkey Hhost]. rewrite Hkey in Hhost. exact Hhost.
Qed.

(** C5: in every state of a crawl, every entry in the frontier and every
    entry that has been fetched has a URL and a key on the host of the seed
    URL, and so has every mirrored page; a candidate whose host differs is
    not enqueued. *)
Theorem frontier_same_host (st : state) (c : FrontierEntry) :
  reachable st ->
  Forall (fun e => on_seed_host (fe_raw e)
                   /\ k_host (fe_url e) = k_host seed_key) (frontier st)
  /\ Forall (fun e => on_seed_host (fe_raw e)
                      /\ k_host (fe_url e) = k_host seed_key) (fetched st)
  /\ Forall (fun p => on_seed_host (mp_source p)) (mirror st)
  /\ (k_host (fe_url c) <> k_host seed_key -> enqueue c st = st).
Proof.
  intros Hr. destruct (reachable_inv st Hr) as [_ _ Hf Hd Hm].
  split; [| split; [| split ] ].
  - eapply Forall_impl; [ exact Hf |]. intros e He.
    split; [ exact (same_host_raw e He) | exact (proj2 He) ].
  - eapply Forall_impl; [ exact Hd |]. intros e He.
    split; [ exact (same_host_raw e He) | exact (proj2 He) ].
  - eapply Forall_impl; [ exact Hm |]. intros p [Hkey Hhost].
    rewrite Hkey in Hhost. exact Hhost.
  - intros Hne. destruct (enqueue_cases c st) as [-> | (Hh & _)];
      [ reflexivity | contradiction ].
Qed.

End CrawlFacts.

Section CrawlScenario.

Import Url Crawl.

Lemma scenario_first_turn :
  step scenario_fetch scenario_links scenario_cfg (init scenario_cfg)
  = Next scenario_after_seed.
Proof.
  vm_compute. reflexivity.
Qed.

Lemma scenario_after_seed_reachable :
  reachable scenario_fetch scenario_links scenario_cfg scenario_after_seed.
Proof.
  eapply reach_step; [ apply reach_init | exact scenario_first_turn ].
Qed.

(** The state after the seed page: two keys visited, with a budget of
    two; [/about] waiting in the frontier; one page mirrored. *)
Lemma scenario_after_seed_state :
  size (visited scenario_after_seed) = 2
  /\ List.map fe_raw (frontier scenario_after_seed) = [ example_about ]
  /\ List.map mp_source (mirror scenario_after_seed) = [ example_root ].
Proof.
  split; [ vm_compute; reflexivity |]. split; reflexivity.
Qed.

(** The end-to-end scenario: the crawl mirrors the seed page and [/about],
    in that order, and never fetches the page on the other host. *)
Lemma scenario_mirror :
  exists final,
    crawl scenario_fetch scenario_links scenario_cfg = Finished final
    /\ List.map mp_source (mirror final) = [ example_root; example_about ]
    /\ List.map fe_raw (fetched final) = [ example_root; example_about ].
Proof.
  eexists. split; [ vm_compute; reflexivity |]. split; reflexivity.
Qed.

(** A site that does not answer: the fetch of the seed fails and the crawl
    fails fatally. *)
Lemma scenario_site_down :
  crawl site_down_fetch scenario_links scenario_cfg = Fatal.
Proof.
  vm_compute. reflexivity.
Qed.

(** A site whose [/about] page does not answer: the crawl goes on to its
    end, with the seed page mirrored and the failure on record. *)
Lemma scenario_about_down :
  exists final,
    crawl about_down_fetch scenario_links scenario_cfg = Finished final
    /\ List.map mp_source (mirror final) = [ example_root ]
    /\ List.map fe_raw (fetched final) = [ example_root; example_about ]
    /\ List.map fe_raw (failed final) = [ example_about ].
Proof.
  eexists. split; [ vm_compute; reflexivity |]. repeat split.
Qed.

(** After the seed page the Visited Set is full (two keys, budget two) and
    the frontier still holds [/about], which the next turn fetches: the
    loop does not stop at a full Visited Set. *)
Lemma scenario_budget_reached_not_stopped :
  ~ stops_at_budget scenario_fetch scenario_links scenario_cfg.
Proof.
  intros Hstop.
  specialize (Hstop scenario_after_seed scenario_after_seed_reachable).
  assert (Hfull : size (visited scenario_after_seed)
                  = maxPages scenario_cfg) by (vm_compute; reflexivity).
  specialize (Hstop (or_intror Hfull)).
  vm_compute in Hstop. discriminate Hstop.
Qed.

(** In the scenario, after the seed page: the frontier holds only
    [/about], on the host of the seed, and the candidate on the other host
    is not enqueued. *)
Lemma frontier_same_host_witness :
  Forall (fun e => on_seed_host scenario_cfg (fe_raw e)
                   /\ k_host (fe_url e) = k_host (seed_key scenario_cfg))
         (frontier scenario_after_seed)
  /\ Forall (fun e => on_seed_host scenario_cfg (fe_raw e)
                      /\ k_host (fe_url e) = k_host (seed_key scenario_cfg))
            (fetched scenario_after_seed)
  /\ Forall (fun p => on_seed_host scenario_cfg (mp_source p))
            (mirror scenario_after_seed)
  /\ (k_host (fe_url other_entry) <> k_host (seed_key scenario_cfg) ->
      enqueue scenario_cfg other_entry scenario_after_seed
      = scenario_after_seed).
Proof.
  apply (frontier_same_host scenario_fetch scenario_links scenario_cfg
                            scenario_after_seed other_entry).
  eapply reach_step; [ apply reach_init |].
  vm_compute. reflexivity.
Defined.

End CrawlScenario.

(** ** Heading-Context Resolver *)

Section ExtractFacts.

Import Extract.

(** Induction over documents, with the property at hand for every child
    of an element. *)
Lemma DocumentNode_tree_ind (P : DocumentNode -> Prop) :
  (forall s, P (Text s)) ->
  (forall t a cs, Forall P cs -> P (Element t a cs)) ->
  forall n, P n.
Proof.
  intros Htext Helem. fix IH 1. intros [t a cs | s].
  - apply Helem. induction cs as [| c cs IHcs]; constructor.
    + apply IH.
    + exact IHcs.
  - apply Htext.
Qed.

Lemma walk_element (t : string) (a : gmap string string)
      (cs : list DocumentNode) (last : string) :
  walk (Element t a cs) last =
  let last1 :=
    if is_heading_tag t then trim (text_of (Element t a cs)) else last in
  (fst (walk_children cs last1),
   (if is_image_tag t then [ (Element t a cs, last1) ] else [])
     ++ snd (walk_children cs last1)).
Proof.
  cbn [walk]. fold walk_children.
  destruct (walk_children cs _) as [last2 below]. reflexivity.
Qed.

Lemma walk_children_cons (c : DocumentNode) (cs : list DocumentNode)
      (cur : string) :
  walk_children (c :: cs) cur =
  (fst (walk_children cs (fst (walk c cur))),
   snd (walk c cur) ++ snd (walk_children cs (fst (walk c cur)))).
Proof.
  cbn [walk_children]. destruct (walk c cur) as [cur1 out1]. cbn [fst snd].
  fold walk_children. destruct (walk_children cs cur1). reflexivity.
Qed.

Lemma preorder_element (t : string) (a : gmap string string)
      (cs : list DocumentNode) :
  preorder (Element t a cs) = Element t a cs :: preorder_children cs.
Proof. reflexivity. Qed.

(** An image is not a heading. *)
Lemma image_not_heading (t : string) :
  is_image_tag t = true -> is_heading_tag t = false.
Proof.
  unfold is_image_tag. intros H. apply String.eqb_eq in H. subst t.
  reflexivity.
Qed.

(** One more node at the end of what precedes: a heading becomes the
    nearest one, anything else changes nothing. *)
Lemma nearest_heading_before_snoc (pre : list DocumentNode)
      (n : DocumentNode) :
  nearest_heading_before (pre ++ [ n ]) =
  if is_heading n then trim (text_of n) else nearest_heading_before pre.
Proof.
  unfold nearest_heading_before. rewrite List.filter_app. cbn [List.filter].
  destruct (is_heading n).
  - rewrite last_snoc. reflexivity.
  - rewrite app_nil_r. reflexivity.
Qed.

Lemma labels_from_nil (pre : list DocumentNode) : labels_from pre [] = [].
Proof. reflexivity. Qed.

Lemma labels_from_cons (pre : list DocumentNode) (n : DocumentNode)
      (nodes : list DocumentNode) :
  labels_from pre (n :: nodes) =
  (if is_image n then [ (n, nearest_heading_before pre) ] else [])
    ++ labels_from (pre ++ [ n ]) nodes.
Proof.
  unfold labels_from. cbn [imap take]. rewrite app_nil_r.
  assert (Hext :
    imap ((fun i m =>
             if is_image m
             then Some (m, nearest_heading_before (pre ++ take i (n :: nodes)))
             else None) ∘ S) nodes
    = imap (fun i m =>
              if is_image m
              then Some (m, nearest_heading_before
                              ((pre ++ [ n ]) ++ take i nodes))
              else None) nodes).
  { apply imap_ext. intros i m _. cbn. rewrite <- app_assoc. reflexivity. }
  rewrite Hext. destruct (is_image n); reflexivity.
Qed.

Lemma labels_from_app (pre xs ys : list DocumentNode) :
  labels_from pre (xs ++ ys) =
  labels_from pre xs ++ labels_from (pre ++ xs) ys.
Proof.
  revert pre. induction xs as [| x xs IH]; intros pre.
  - cbn [app]. rewrite labels_from_nil, app_nil_r. reflexivity.
  - cbn [app]. rewrite !labels_from_cons, IH, <- !app_assoc. reflexivity.
Qed.

(** The walk over a subtree, started with the nearest heading of what
    precedes the subtree, ends with the nearest heading of what precedes
    the next subtree, and labels the images of the subtree as the
    specification words it. *)
Lemma walk_preorder (n : DocumentNode) :
  forall pre : list DocumentNode,
    walk n (nearest_heading_before pre) =
    (nearest_heading_before (pre ++ preorder n),
     labels_from pre (preorder n)).
Proof.
  induction n as [s | t a cs IHcs] using DocumentNode_tree_ind; intros pre.
  - cbn [walk preorder]. rewrite nearest_heading_before_snoc.
    rewrite labels_from_cons. reflexivity.
  - rewrite walk_element, preorder_element. cbn zeta.
    set (n := Element t a cs).
    assert (Hlast :
      (if is_heading_tag t then trim (text_of n)
       else nearest_heading_before pre)
      = nearest_heading_before (pre ++ [ n ])).
    { rewrite nearest_heading_before_snoc. reflexivity. }
    rewrite Hlast.
    assert (Hchildren : forall before,
      walk_children cs (nearest_heading_before before) =
      (nearest_heading_before (before ++ preorder_children cs),
       labels_from before (preorder_children cs))).
    { clear Hlast. induction IHcs as [| c cs Hc _ IH]; intros before.
      - cbn. rewrite app_nil_r. reflexivity.
      - rewrite walk_children_cons, Hc. cbn [fst snd].
        rewrite IH. cbn [fst snd preorder_children].
        fold preorder_children.
        rewrite labels_from_app, app_assoc. reflexivity. }
    rewrite Hchildren. cbn [fst snd].
    rewrite labels_from_cons.
    change (n :: preorder_children cs) with ([ n ] ++ preorder_children cs).
    rewrite app_assoc. f_equal. f_equal.
    cbn [is_image n]. destruct (is_image_tag t) eqn:Ei; [| reflexivity ].
    rewrite nearest_heading_before_snoc. cbn [is_heading n].
    rewrite (image_not_heading t Ei). reflexivity.
Qed.

(** C6: the resolver pairs every image element of a document, in document
    order, with the trimmed text of the nearest heading element (h1 to h6)
    among the nodes that precede the image in the pre-order, depth-first
    traversal of the whole document, and with the empty string when no
    heading precedes it. *)
Theorem nearest_heading_resolved (doc : DocumentNode) :
  resolve_headings doc = nearest_headings doc
  /\ (forall (i : nat) (n : DocumentNode),
        preorder doc !! i = Some n ->
        is_image n = true ->
        In (n, nearest_heading_before (take i (preorder doc)))
           (resolve_headings doc))
  /\ (forall before : list DocumentNode,
        List.filter is_heading before = [] ->
        nearest_heading_before before = EmptyString).
Proof.
  assert (Heq : resolve_headings doc = nearest_headings doc).
  { unfold resolve_headings.
    change EmptyString with (nearest_heading_before []).
    rewrite walk_preorder. reflexivity. }
  split; [ exact Heq |]. split.
  - intros i n Hi Himg. rewrite Heq. unfold nearest_headings.
    apply list_elem_of_In, list_elem_of_omap.
    exists (Some (n, nearest_heading_before (take i (preorder doc)))).
    split; [| reflexivity ].
    apply elem_of_lookup_imap. exists i, n. rewrite Himg.
    split; [ reflexivity | exact Hi ].
  - intros before Hnone. unfold nearest_heading_before. rewrite Hnone.
    reflexivity.
Qed.

(** The page of the end-to-end scenario: the two images get the headings
    Team and Gallery, in that order. *)
Lemma scenario_page_headings :
  List.map snd (resolve_headings scenario_page) = [ "Team"; "Gallery" ].
Proof. reflexivity. Qed.

End ExtractFacts.

(** ** The workflow action *)

Section NumberFacts.

Import Workflow.

Local Open Scope Z_scope.

(** One shift to the right halves the mantissa and moves its last bit to
    the round bit. *)
Lemma shr_1_spec (m : Z) (r s : bool) :
  0 <= m ->
  shr_m (shr_1 (Build_shr_record m r s)) = m / 2
  /\ shr_r (shr_1 (Build_shr_record m r s)) = Z.odd m.
Proof.
  intros Hm. destruct m as [| [p | p |] |]; cbn [shr_1 shr_m shr_r orb];
    try lia.
  - split; reflexivity.
  - split; [| reflexivity ]. apply (Z.div_unique _ _ _ 1); lia.
  - split; [| reflexivity ]. apply (Z.div_unique _ _ _ 0); lia.
  - split; reflexivity.
Qed.

(** Iteration by a positive count, step by step. *)
Lemma iter_pos_ind {A : Type} (f : A -> A) (I : nat -> A -> Prop) :
  (forall k y, I k y -> I (S k) (f y)) ->
  forall (p : positive) (k : nat) (x : A),
    I k x -> I (k + Pos.to_nat p)%nat (SpecFloat.iter_pos f p x).
Proof.
  intros Hstep.
  induction p as [p IH | p IH |]; intros k x Hx; cbn [SpecFloat.iter_pos].
  - replace (k + Pos.to_nat p~1)%nat
      with (S k + Pos.to_nat p + Pos.to_nat p)%nat by lia.
    apply IH, IH, Hstep, Hx.
  - replace (k + Pos.to_nat p~0)%nat
      with (k + Pos.to_nat p + Pos.to_nat p)%nat by lia.
    apply IH, IH, Hx.
  - replace (k + Pos.to_nat 1)%nat with (S k) by lia.
    apply Hstep, Hx.
Qed.

Lemma iter_shr_1_spec (m0 : Z) (p : positive) :
  0 <= m0 ->
  shr_m (SpecFloat.iter_pos shr_1 p (Build_shr_record m0 false false))
  = m0 / 2 ^ Zpos p
  /\ (shr_r (SpecFloat.iter_pos shr_1 p (Build_shr_record m0 false false))
      = true ->
      2 ^ Zpos p <= 2 * (m0 mod 2 ^ Zpos p)).
Proof.
  intros Hm0.
  pose (I := fun (k : nat) (mrs : shr_record) =>
    shr_m mrs = m0 / 2 ^ Z.of_nat k
    /\ (shr_r mrs = true ->
        2 ^ Z.of_nat k <= 2 * (m0 mod 2 ^ Z.of_nat k))).
  assert (Hall : I (0 + Pos.to_nat p)%nat
                   (SpecFloat.iter_pos shr_1 p (Build_shr_record m0 false false))).
  { apply iter_pos_ind.
    - intros k [mk rk sk] [Hmk _]. cbn [shr_m] in Hmk.
      assert (Hpow : 0 < 2 ^ Z.of_nat k) by (apply Z.pow_pos_nonneg; lia).
      assert (Hmk0 : 0 <= mk) by (subst mk; apply Z.div_pos; lia).
      destruct (shr_1_spec mk rk sk Hmk0) as [Hq Hr].
      assert (Hsucc : 2 ^ Z.of_nat (S k) = 2 ^ Z.of_nat k * 2).
      { rewrite Nat2Z.inj_succ, Z.pow_succ_r by lia. lia. }
      split.
      + rewrite Hq, Hmk, Hsucc. apply Z.div_div; lia.
      + rewrite Hr, Hsucc. intros Hodd.
        rewrite Z.rem_mul_r by lia.
        rewrite Zodd_mod in Hodd. apply Z.eqb_eq in Hodd.
        rewrite <- Hmk, Hodd.
        pose proof (Z.mod_pos_bound m0 (2 ^ Z.of_nat k) Hpow). lia.
    - split; cbn.
      + rewrite Z.div_1_r. reflexivity.
      + discriminate. }
  cbn [Nat.add] in Hall. unfold I in Hall.
  rewrite positive_nat_Z in Hall. exact Hall.
Qed.

(** A shift by [n] places of an exact mantissa, then rounding to nearest:
    the quotient by [2^n], or one more when the remainder is at least half
    of [2^n]. *)
Lemma shr_round (m0 e n : Z) :
  0 <= m0 ->
  let mrs := fst (shr (Build_shr_record m0 false false) e n) in
  let q := m0 / 2 ^ Z.max n 0 in
  let q' := round_nearest_even (shr_m mrs) (loc_of_shr_record mrs) in
  snd (shr (Build_shr_record m0 false false) e n) = e + Z.max n 0
  /\ shr_m mrs = q
  /\ q <= q' <= q + 1
  /\ (q' = q + 1 -> 0 < n /\ 2 ^ n <= 2 * (m0 mod 2 ^ n)).
Proof.
  intros Hm0. destruct n as [| p | p]; cbn [shr fst snd Z.max Z.compare].
  - cbn. rewrite Z.div_1_r. repeat split; lia.
  - destruct (iter_shr_1_spec m0 p Hm0) as [Hq Hr].
    replace (Z.max (Z.pos p) 0) with (Z.pos p) by lia.
    destruct (SpecFloat.iter_pos shr_1 p _) as [mk rk sk].
    cbn [shr_m shr_r] in *.
    subst mk. split; [ reflexivity |]. split; [ reflexivity |].
    destruct rk, sk; cbn [loc_of_shr_record round_nearest_even];
      try destruct (Z.even _); repeat split; try lia; auto.
  - cbn. rewrite Z.div_1_r. repeat split; lia.
Qed.

Lemma Zdigits2_bounds (m : Z) :
  0 < m -> 2 ^ (Zdigits2 m - 1) <= m < 2 ^ Zdigits2 m.
Proof.
  intros Hm. destruct m as [| p |]; try lia. cbn [Zdigits2].
  induction p as [p IH | p IH |].
  - cbn [digits2_pos]. rewrite Pos2Z.inj_succ.
    replace (Z.succ (Z.pos (digits2_pos p)) - 1)
      with (Z.succ (Z.pos (digits2_pos p) - 1)) by lia.
    rewrite !Z.pow_succ_r by lia. specialize (IH ltac:(lia)). lia.
  - cbn [digits2_pos]. rewrite Pos2Z.inj_succ.
    replace (Z.succ (Z.pos (digits2_pos p)) - 1)
      with (Z.succ (Z.pos (digits2_pos p) - 1)) by lia.
    rewrite !Z.pow_succ_r by lia. specialize (IH ltac:(lia)). lia.
  - cbn. lia.
Qed.

Lemma Zdigits2_le (m k : Z) : 0 <= m -> 0 <= k -> m < 2 ^ k -> Zdigits2 m <= k.
Proof.
  intros Hm Hk Hlt. destruct (Z.eq_dec m 0) as [-> | Hne]; [ cbn; lia |].
  destruct (Zdigits2_bounds m ltac:(lia)) as [Hlo _].
  destruct (Z.le_gt_cases (Zdigits2 m) k) as [H | H]; [ exact H |].
  assert (2 ^ k <= 2 ^ (Zdigits2 m - 1)) by (apply Z.pow_le_mono_r; lia).
  lia.
Qed.

Lemma pow2_nonpos (x : Z) : x <= 0 -> 2 ^ x <= 1.
Proof.
  intros Hx. destruct (Z.eq_dec x 0) as [-> | Hne]; [ cbn; lia |].
  rewrite Z.pow_neg_r by lia. lia.
Qed.

(** Rounding an exact mantissa: shift to the format's exponent, round to
    nearest even, and shift once more if the rounding carried. *)
Lemma binary_round_aux_exact (sx : bool) (mx ex : Z) :
  binary_round_aux prec emax sx mx ex loc_Exact =
  let s1 := shr (Build_shr_record mx false false) ex
                (fexp prec emax (Zdigits2 mx + ex) - ex) in
  let q' := round_nearest_even (shr_m (fst s1)) (loc_of_shr_record (fst s1)) in
  let s2 := shr (Build_shr_record q' false false) (snd s1)
                (fexp prec emax (Zdigits2 q' + snd s1) - snd s1) in
  match shr_m (fst s2) with
  | 0 => S754_zero sx
  | Zpos m =>
      if snd s2 <=? emax - prec then S754_finite sx m (snd s2)
      else S754_infinity sx
  | Zneg _ => S754_nan
  end.
Proof.
  unfold binary_round_aux, shr_fexp. cbn [shr_record_of_loc].
  destruct (shr (Build_shr_record mx false false) ex _) as [mrs1 e1].
  cbn [fst snd].
  destruct (shr _ e1 _) as [mrs2 e2]. reflexivity.
Qed.

(** A Number below 1, times one million, then floored, is an integer
    between 0 and 999999. *)
Lemma scaled_random_floor (m : positive) (e : Z) :
  bounded prec emax m e = true ->
  Zpos m < 2 ^ (- e) ->
  exists z : Z,
    0 <= z <= 999999
    /\ Math_floor (Number_mul (S754_finite false m e) (Number_of_Z 1000000))
       = Number_of_Z z.
Proof.
  intros Hb Hlt.
  (* the operand: its exponent and its mantissa *)
  unfold bounded, canonical_mantissa, fexp, SpecFloat.emin, prec, emax in Hb.
  apply andb_prop in Hb as [Hcan _]. apply Z.eqb_eq in Hcan.
  pose proof (Zdigits2_bounds (Zpos m) ltac:(lia)) as [_ Hm_hi].
  cbn [Zdigits2] in Hm_hi.
  assert (He_lo : -1074 <= e) by lia.
  assert (Hdm : Z.pos (digits2_pos m) <= 53) by lia.
  assert (Hm53 : Zpos m < 2 ^ 53).
  { eapply Z.lt_le_trans; [ exact Hm_hi |]. apply Z.pow_le_mono_r; lia. }
  assert (He_neg : e < 0).
  { destruct (Z.lt_ge_cases e 0) as [H | H]; [ exact H |].
    pose proof (pow2_nonpos (- e) ltac:(lia)). lia. }
  (* the exact product *)
  change (Number_of_Z 1000000) with (S754_finite false 8589934592000000 (-33)).
  unfold Number_mul. cbn [SFmul xorb].
  rewrite binary_round_aux_exact.
  set (K := 8589934592000000).
  rewrite Pos2Z.inj_mul. fold K.
  set (M := Z.pos m * K). set (E := e + -33).
  assert (HM_pos : 0 < M) by (unfold M, K; lia).
  assert (HpowE : 0 < 2 ^ (- e)) by (apply Z.pow_pos_nonneg; lia).
  assert (HMK : M + K <= K * 2 ^ (- e)) by (unfold M, K; nia).
  pose proof (Zdigits2_bounds M HM_pos) as [Hd_lo Hd_hi].
  set (d := Zdigits2 M) in *.
  assert (Hd53 : 53 <= d).
  { destruct (Z.le_gt_cases 53 d) as [H | H]; [ exact H |].
    assert (2 ^ d <= 2 ^ 52) by (apply Z.pow_le_mono_r; lia).
    assert (K <= M) by (unfold M, K; nia).
    unfold K in *. change (2 ^ 52) with 4503599627370496 in *. lia. }
  assert (Hd106 : d <= 106).
  { apply Zdigits2_le; [ lia | lia |].
    change (2 ^ 106) with (2 ^ 53 * 2 ^ 53).
    unfold M, K. change (2 ^ 53) with 9007199254740992 in *. nia. }
  assert (Hde : d <= 53 - e).
  { apply Zdigits2_le; [ lia | lia |].
    replace (53 - e) with (- e + 53) by lia.
    rewrite Z.pow_add_r by lia.
    unfold M, K. change (2 ^ 53) with 9007199254740992. nia. }
  (* the first shift and the rounding *)
  cbn zeta. unfold fexp, SpecFloat.emin, prec, emax.
  change (3 - 1024 - 53) with (-1074).
  set (n := Z.max (d + E - 53) (-1074) - E).
  assert (Hn : 0 <= n <= 53) by (unfold n, E; lia).
  pose proof (shr_round M E n ltac:(lia)) as Hshr. cbn zeta in Hshr.
  destruct Hshr as (He1 & Hq & Hq' & Hup).
  replace (Z.max n 0) with n in * by lia.
  set (s1 := shr (Build_shr_record M false false) E n) in *.
  set (q' := round_nearest_even (shr_m (fst s1))
                                (loc_of_shr_record (fst s1))) in *.
  rewrite He1. clear Hq.
  set (e1 := E + n) in *.
  assert (He1_hi : e1 <= -33) by (unfold e1, n, E; lia).
  assert (He1_lo : -1074 <= e1) by (unfold e1, n, E; lia).
  assert (Hpn : 0 < 2 ^ n) by (apply Z.pow_pos_nonneg; lia).
  assert (Hpn53 : 2 ^ n <= 2 ^ 53) by (apply Z.pow_le_mono_r; lia).
  change (2 ^ 53) with 9007199254740992 in Hpn53.
  set (q := M / 2 ^ n) in *.
  assert (Hq_lo : 0 <= q) by (apply Z.div_pos; lia).
  assert (Hq_hi : q < 2 ^ 53).
  { apply Z.div_lt_upper_bound; [ exact Hpn |].
    rewrite <- Z.pow_add_r by lia.
    eapply Z.lt_le_trans; [ exact Hd_hi |]. apply Z.pow_le_mono_r; lia. }
  change (2 ^ 53) with 9007199254740992 in Hq_hi.
  set (T := 1000000 * 2 ^ (- e1)).
  assert (HT : 2 ^ n * T = K * 2 ^ (- e)).
  { unfold T, K. replace (- e) with (n + (- e1) + -33) by (unfold e1, E; lia).
    replace 8589934592000000 with (1000000 * 2 ^ 33) by reflexivity.
    replace (2 ^ (n + - e1 + -33)) with (2 ^ (n + (- e1 - 33)))
      by (f_equal; lia).
    rewrite (Z.pow_add_r 2 n) by lia.
    replace (- e1) with ((- e1 - 33) + 33) at 1 by lia.
    rewrite (Z.pow_add_r 2 (- e1 - 33) 33) by lia. ring. }
  assert (Hq'T : q' < T).
  { pose proof (Z.div_mod M (2 ^ n) ltac:(lia)) as Hdm'. fold q in Hdm'.
    pose proof (Z.mod_pos_bound M (2 ^ n) Hpn) as Hr.
    destruct (Z.eq_dec q' (q + 1)) as [Hup' | Hsame].
    - destruct (Hup Hup') as [_ Hhalf].
      destruct (Z.lt_ge_cases q' T) as [H | H]; [ exact H |].
      assert (2 ^ n * T <= 2 ^ n * q') by (apply Z.mul_le_mono_nonneg_l; lia).
      unfold K in *. nia.
    - assert (q' = q) by lia. subst q'.
      destruct (Z.lt_ge_cases q T) as [H' | H']; [ lia |].
      assert (2 ^ n * T <= 2 ^ n * q) by (apply Z.mul_le_mono_nonneg_l; lia).
      unfold K in *. nia. }
  (* the second shift *)
  set (d' := Zdigits2 q').
  assert (Hd' : d' <= 54).
  { apply Zdigits2_le; [ lia | lia |].
    change (2 ^ 54) with 18014398509481984. lia. }
  set (n2 := Z.max (d' + e1 - 53) (-1074) - e1).
  pose proof (shr_round q' e1 n2 ltac:(lia)) as Hshr2. cbn zeta in Hshr2.
  destruct Hshr2 as (He2 & Hm2 & _ & _).
  rewrite He2, Hm2.
  assert (Hc : Z.max n2 0 = 0 \/ Z.max n2 0 = 1) by (unfold n2; lia).
  assert (Hfin : (e1 + Z.max n2 0 <=? 1024 - 53) = true)
    by (apply Z.leb_le; lia).
  rewrite Hfin.
  assert (Hm2_lo : 0 <= q' / 2 ^ Z.max n2 0).
  { apply Z.div_pos; [ lia |]. apply Z.pow_pos_nonneg; lia. }
  destruct (q' / 2 ^ Z.max n2 0) as [| mm | mm] eqn:Emm; [| | lia ].
  - exists 0. split; [ lia | reflexivity ].
  - cbn [Math_floor cond_Zopp].
    assert (Hneg2 : (0 <=? e1 + Z.max n2 0) = false) by (apply Z.leb_gt; lia).
    rewrite Hneg2.
    exists (Z.pos mm / 2 ^ (- (e1 + Z.max n2 0))). split; [| reflexivity ].
    assert (Hp2 : 0 < 2 ^ (- (e1 + Z.max n2 0)))
      by (apply Z.pow_pos_nonneg; lia).
    split; [ apply Z.div_pos; lia |].
    apply Z.lt_succ_r. change (Z.succ 999999) with 1000000.
    apply Z.div_lt_upper_bound; [ exact Hp2 |].
    rewrite <- Emm. unfold T in Hq'T.
    destruct Hc as [Hc | Hc]; rewrite Hc in *.
    + rewrite Z.add_0_r. change (2 ^ 0) with 1. rewrite Z.div_1_r. lia.
    + change (2 ^ 1) with 2.
      replace (- e1) with (Z.succ (- (e1 + 1))) in Hq'T by lia.
      rewrite Z.pow_succ_r in Hq'T by lia.
      apply Z.div_lt_upper_bound; [ lia |]. lia.
Qed.

(** The bound is reached: the largest Number below 1 gives 999999, and the
    smallest Number above 0 gives 0. *)
Example scaled_largest_random :
  is_random (S754_finite false 9007199254740991 (-53)) = true
  /\ Math_floor (Number_mul (S754_finite false 9007199254740991 (-53))
                            (Number_of_Z 1000000))
     = Number_of_Z 999999.
Proof. split; reflexivity. Qed.

Example scaled_smallest_random :
  is_random (S754_finite false 1 (-1074)) = true
  /\ Math_floor (Number_mul (S754_finite false 1 (-1074))
                            (Number_of_Z 1000000))
     = Number_of_Z 0.
Proof. split; reflexivity. Qed.

(** C9: when the input fields hold no truthy company_domain, main throws
    an Error with the message Missing company domain and makes no call to
    the callback; otherwise it calls the callback exactly once, with an
    enriched_revenue that is an integer between 0 and 999999. *)
Theorem main_contract (ev : event) (random : spec_float) :
  (ToBoolean (get (inputFields ev) "company_domain") = false ->
   main ev random = ([], Threw "Missing company domain"))
  /\ (ToBoolean (get (inputFields ev) "company_domain") = true ->
      is_random random = true ->
      exists z : Z,
        0 <= z <= 999999
        /\ main ev random = ([ mkOutput (Number_of_Z z) ], Returned)).
Proof.
  split.
  - intros Hf. unfold main. rewrite Hf. reflexivity.
  - intros Ht Hr. unfold main. rewrite Ht. cbn [negb].
    unfold is_random in Hr. apply andb_prop in Hr as [Hv Hrange].
    destruct random as [[|] | | | [|] m e]; try discriminate.
    + exists 0. split; [ lia | reflexivity ].
    + apply Z.ltb_lt in Hrange. cbn [valid_binary] in Hv.
      destruct (scaled_random_floor m e Hv Hrange) as (z & Hz & Heq).
      exists z. split; [ exact Hz |]. rewrite Heq. reflexivity.
Qed.

(** An event without a company domain: no call, and the error.  An event
    with one, and the random value one half: one call, with an integer in
    range. *)
Lemma main_contract_witness :
  main (mkEvent ∅) one_half = ([], Threw "Missing company domain")
  /\ exists z : Z,
       0 <= z <= 999999
       /\ main sample_event one_half = ([ mkOutput (Number_of_Z z) ], Returned).
Proof.
  split.
  - apply (main_contract (mkEvent ∅) one_half). reflexivity.
  - apply (main_contract sample_event one_half); reflexivity.
Defined.

(** X4: main uses the company domain only to decide whether to go on: two
    events whose company_domain values are both truthy, or both falsy, end
    the same way and make the same calls, whatever the domains and the
    other fields are. *)
Theorem main_reads_company_domain (ev ev' : event) (random : spec_float) :
  ToBoolean (get (inputFields ev) "company_domain")
  = ToBoolean (get (inputFields ev') "company_domain") ->
  main ev random = main ev' random.
Proof.
  intros Hsame. unfold main. rewrite Hsame. reflexivity.
Qed.

Lemma main_reads_company_domain_witness :
  main sample_event one_half = main sample_event_more one_half.
Proof.
  apply (main_reads_company_domain sample_event sample_event_more one_half).
  reflexivity.
Defined.

End NumberFacts.


(** ** More on the orchestration wrapper *)

Section WrapperOutcome.

Import Wrapper.

(** How a run under [set -e] ends: either every command has succeeded, all
    of them have run and the status is 0; or some command is the first to
    fail, it is the last one that has run, and its status is the status of
    the run. *)
Lemma run_errexit_outcome (e : env) (cmds : list command) (n : nat) :
  (snd (run_errexit e n cmds) = 0
   /\ fst (run_errexit e n cmds) = cmds
   /\ forall k c, cmds !! k = Some c -> e (n + k) c = 0)
  \/ (exists k c,
        cmds !! k = Some c
        /\ e (n + k) c <> 0
        /\ snd (run_errexit e n cmds) = e (n + k) c
        /\ fst (run_errexit e n cmds) = take (S k) cmds
        /\ forall j c', j < k -> cmds !! j = Some c' -> e (n + j) c' = 0).
Proof.
  revert n. induction cmds as [| c cmds IH]; intros n.
  - left. cbn. repeat split. intros k c Hk. discriminate Hk.
  - rewrite run_errexit_cons.
    destruct (Nat.eqb (e n c) 0) eqn:E; cbn [fst snd].
    + apply Nat.eqb_eq in E.
      destruct (IH (S n))
        as [(Hst & Htr & Hall) | (k & c' & Hk & Hne & Hst & Htr & Hall)].
      * left. rewrite Hst, Htr. repeat split.
        intros [| k] c' Hk; cbn in Hk.
        -- injection Hk as <-. rewrite Nat.add_0_r. exact E.
        -- rewrite Nat.add_succ_r. exact (Hall k c' Hk).
      * right. exists (S k), c'. rewrite Nat.add_succ_r.
        split; [ exact Hk |]. split; [ exact Hne |].
        split; [ exact Hst |]. split; [ rewrite Htr; reflexivity |].
        intros [| j] c'' Hj Hc''; cbn in Hc''.
        -- injection Hc'' as <-. rewrite Nat.add_0_r. exact E.
        -- rewrite Nat.add_succ_r. apply (Hall j c''); [ lia | exact Hc'' ].
    + apply Nat.eqb_neq in E. right. exists 0, c. rewrite Nat.add_0_r.
      split; [ reflexivity |]. split; [ exact E |].
      split; [ reflexivity |]. split; [ reflexivity |].
      intros j c' Hj. lia.
Qed.

(** X6: the wrapper exits with status 0 exactly when every command of the
    script has succeeded, and then all of them have run; otherwise the
    first command that fails is the last one run, and the wrapper exits
    with the status of that command. *)
Theorem wrapper_exit_status (e : env) (args : list string) :
  (snd (run e args) = 0
   /\ fst (run e args) = script args
   /\ forall k c, script args !! k = Some c -> e k c = 0)
  \/ (exists k c,
        script args !! k = Some c
        /\ e k c <> 0
        /\ snd (run e args) = e k c
        /\ fst (run e args) = take (S k) (script args)
        /\ forall j c', j < k -> script args !! j = Some c' -> e j c' = 0).
Proof.
  exact (run_errexit_outcome e (script args) 0).
Qed.

(** The last line of the script. *)
Lemma success_line_position (args : list string) (k : nat) :
  In (Echo ("✅ Complete! Images extracted to " +:+ CSV_OUT))
     (take (S k) (script args)) ->
  6 <= k.
Proof.
  intros Hin.
  destruct (Nat.le_gt_cases 6 k) as [H | H]; [ exact H | exfalso ].
  assert (Hk : k = 0 \/ k = 1 \/ k = 2 \/ k = 3 \/ k = 4 \/ k = 5) by lia.
  unfold script, after_crawl, step1_banner, crawl_step, extract_step in Hin.
  destruct Hk as [-> | [-> | [-> | [-> | [-> | ->]]]]]; cbn in Hin;
    repeat (destruct Hin as [Hin | Hin]; [ discriminate Hin |]);
    exact Hin.
Qed.

(** X7: the line that reports completion is printed only when both steps
    have exited with status 0: whenever it is among the commands that ran,
    the crawl step and the extract step have succeeded. *)
Theorem wrapper_success_line (e : env) (args : list string) :
  In (Echo ("✅ Complete! Images extracted to " +:+ CSV_OUT))
     (fst (run e args)) ->
  e 1 (crawl_step args) = 0 /\ e 4 extract_step = 0.
Proof.
  intros Hin.
  destruct (run_errexit_outcome e (script args) 0)
    as [(_ & _ & Hall) | (k & c & _ & _ & _ & Htr & Hall)].
  - split; [ apply (Hall 1) | apply (Hall 4) ]; reflexivity.
  - fold (run e args) in Htr. rewrite Htr in Hin.
    pose proof (success_line_position args k Hin) as Hk.
    split; [ apply (Hall 1) | apply (Hall 4) ]; try lia; reflexivity.
Qed.

Lemma wrapper_success_line_witness :
  all_succeed 1 (crawl_step []) = 0 /\ all_succeed 4 extract_step = 0.
Proof.
  apply (wrapper_success_line all_succeed []).
  cbn. do 6 right. left. reflexivity.
Defined.

End WrapperOutcome.

(** ** More on the dashboard table *)

Section RowKeys.

Import Dashboard.

Lemma append_assoc (a b c : string) : (a +:+ b) +:+ c = a +:+ (b +:+ c).
Proof.
  induction a as [| x a IH]; [ reflexivity |].
  change (String x ((a +:+ b) +:+ c) = String x (a +:+ (b +:+ c))).
  rewrite IH. reflexivity.
Qed.

(** A character of the second part of a concatenation is a character of
    the whole. *)
Lemma in_append_r (c : ascii) (a b : string) :
  In c (list_ascii_of_string b) -> In c (list_ascii_of_string (a +:+ b)).
Proof.
  intros Hb. induction a as [| x a IH]; [ exact Hb |].
  right. exact IH.
Qed.

(** What follows the last occurrence of a character is determined by the
    whole string. *)
Lemma after_last_occurrence (c : ascii) (a b d1 d2 : string) :
  ~ In c (list_ascii_of_string d1) ->
  ~ In c (list_ascii_of_string d2) ->
  a +:+ String c d1 = b +:+ String c d2 ->
  d1 = d2.
Proof.
  intros H1 H2. revert b.
  induction a as [| x a IH]; intros [| y b] Heq.
  - injection Heq as ->. reflexivity.
  - injection Heq as <- ->. exfalso. apply H1.
    apply in_append_r. left. reflexivity.
  - injection Heq as -> <-. exfalso. apply H2.
    apply in_append_r. left. reflexivity.
  - injection Heq as _ Heq. exact (IH b Heq).
Qed.

(** Decimal numerals have no dash. *)
Lemma pretty_N_go_no_dash (x : N) (s : string) :
  ~ In "-"%char (list_ascii_of_string s) ->
  ~ In "-"%char (list_ascii_of_string (pretty_N_go x s)).
Proof.
  revert s. induction (N.lt_wf_0 x) as [x _ IH]; intros s Hs.
  destruct (N.eq_dec x 0%N) as [-> | Hx].
  - rewrite pretty_N_go_0. exact Hs.
  - rewrite pretty_N_go_step by lia. apply IH.
    + apply N.div_lt; lia.
    + intros [Hc | Hin]; [| exact (Hs Hin) ].
      unfold pretty_N_char in Hc.
      repeat case_match; discriminate Hc.
Qed.

Lemma pretty_nat_no_dash (i : nat) :
  ~ In "-"%char (list_ascii_of_string (pretty i)).
Proof.
  unfold pretty, pretty_nat, pretty, pretty_N.
  destruct (decide (N.of_nat i = 0%N)).
  - cbn. intros [H | []]. discriminate H.
  - apply pretty_N_go_no_dash. cbn. tauto.
Qed.

(** The key of a row tells its index. *)
Lemma row_key_index (p s p' s' : string) (i j : nat) :
  row_key p s i = row_key p' s' j -> i = j.
Proof.
  unfold row_key. intros Heq.
  rewrite <- !append_assoc in Heq.
  change ("-" +:+ pretty i) with (String "-" (pretty i)) in Heq.
  change ("-" +:+ pretty j) with (String "-" (pretty j)) in Heq.
  rewrite !append_assoc in Heq.
  assert (Hij : pretty i = pretty j).
  { eapply (after_last_occurrence "-"%char (p +:+ "-" +:+ s)
                                  (p' +:+ "-" +:+ s'));
      [ apply pretty_nat_no_dash | apply pretty_nat_no_dash |].
    rewrite !append_assoc. exact Heq. }
  exact (inj pretty i j Hij).
Qed.

(** X8: the keys of the body rows are pairwise distinct, whatever the
    records, equal records included. *)
Theorem image_table_keys_distinct (h : heap) (images : list loc)
        (rs : list ImageRecord) :
  deref h images = Some rs ->
  exists out,
    ImageTable images h = Some (out, h)
    /\ NoDup (List.map (prop_of "key") (body_rows out)).
Proof.
  intros Hd. destruct (image_table_spec rs) as (out & Hall & _ & Hbody).
  exists out. split; [ exact (Hall h images Hd) |].
  destruct rs as [| r rs].
  - pose proof (Hall h images Hd) as Hout.
    rewrite (deref_nil_inv h images Hd) in Hout.
    cbn in Hout. injection Hout as <-. cbn.
    apply NoDup_singleton.
  - destruct (Hbody ltac:(discriminate)) as (_ & Hkeys & _).
    rewrite Hkeys. apply NoDup_alt. intros i j k Hi Hj.
    rewrite list_lookup_imap in Hi, Hj.
    destruct ((r :: rs) !! i) as [ri |]; [| discriminate ].
    destruct ((r :: rs) !! j) as [rj |]; [| discriminate ].
    cbn in Hi, Hj. rewrite <- Hj in Hi. injection Hi as Hi.
    exact (row_key_index _ _ _ _ i j Hi).
Qed.

(** The same record three times: three keys, all different. *)
Lemma image_table_keys_distinct_witness :
  exists out,
    ImageTable [ 0; 0; 0 ] sample_heap = Some (out, sample_heap)
    /\ NoDup (List.map (prop_of "key") (body_rows out)).
Proof.
  apply (image_table_keys_distinct
           sample_heap [ 0; 0; 0 ]
           [ sample_record; sample_record; sample_record ]).
  reflexivity.
Defined.

End RowKeys.

Section TableLayout.

Import Dashboard Layout.

(** Rendering a row succeeds only on an allocated reference. *)
Lemma render_row_inv (h h' : heap) (image : loc) (index : nat)
      (row : VNode) :
  render_row image index h = Some (row, h') ->
  exists r, h !! image = Some r.
Proof.
  destruct (h !! image) as [r |] eqn:Hl; [ intros _; exists r; reflexivity |].
  unfold render_row, bind at 1, read. rewrite Hl. discriminate.
Qed.

(** Every body row of a record takes six columns. *)
Lemma render_row_width (h h' : heap) (image : loc) (index : nat)
      (row : VNode) :
  render_row image index h = Some (row, h') -> row_width row = 6.
Proof.
  intros Hrow. destruct (render_row_inv _ _ _ _ _ Hrow) as [r Hl].
  unfold render_row in Hrow.
  rewrite !(bind_read h image r) in Hrow by exact Hl.
  injection Hrow as <- _. reflexivity.
Qed.

Lemma map_indexed_widths (images : list loc) (h h' : heap) (i : nat)
      (rows : list VNode) :
  map_indexed render_row i images h = Some (rows, h') ->
  Forall (fun row => row_width row = 6) rows.
Proof.
  revert h h' i rows. induction images as [| image images IH];
    intros h h' i rows Hrows.
  - injection Hrows as <- _. constructor.
  - cbn [map_indexed] in Hrows. unfold bind at 1 in Hrows.
    destruct (render_row image i h) as [[row h1] |] eqn:Hrow;
      [| discriminate ].
    unfold bind at 1 in Hrows.
    destruct (map_indexed render_row (S i) images h1) as [[rest h2] |]
      eqn:Hrest; [| discriminate ].
    injection Hrows as <- _. constructor.
    + exact (render_row_width _ _ _ _ _ Hrow).
    + exact (IH _ _ _ _ Hrest).
Qed.

(** X9: in every table that is rendered, the head is one row of six cells
    and every row of the body takes exactly six columns: the rows of the
    records have six cells, and the single cell of the row shown for no
    images spans six columns. *)
Theorem image_table_row_widths (h h' : heap) (images : list loc)
        (out : VNode) :
  ImageTable images h = Some (out, h') ->
  List.map row_width (head_rows out) = [ 6 ]
  /\ body_rows out <> []
  /\ Forall (fun row => row_width row = 6) (body_rows out).
Proof.
  unfold ImageTable. intros Hout.
  destruct images as [| image images].
  - injection Hout as <- _. cbn. split; [ reflexivity |].
    split; [ discriminate |]. repeat constructor.
  - cbn [length Nat.eqb] in Hout. unfold bind at 1 in Hout.
    destruct (map_indexed render_row 0 (image :: images) h)
      as [[rows h1] |] eqn:Hrows; [| discriminate ].
    injection Hout as <- _.
    pose proof (map_indexed_widths _ _ _ _ _ Hrows) as Hw.
    unfold body_rows, head_rows. cbn. rewrite app_nil_r.
    split; [ reflexivity |]. split; [| exact Hw ].
    cbn [map_indexed] in Hrows. unfold bind at 1 in Hrows.
    destruct (render_row image 0 h) as [[row h2] |]; [| discriminate ].
    unfold bind at 1 in Hrows.
    destruct (map_indexed render_row 1 images h2) as [[rest h3] |];
      [| discriminate ].
    injection Hrows as <- _. discriminate.
Qed.

Lemma image_table_row_widths_witness :
  exists out,
    ImageTable [ 0; 0 ] sample_heap = Some (out, sample_heap)
    /\ List.map row_width (head_rows out) = [ 6 ]
    /\ body_rows out <> []
    /\ Forall (fun row => row_width row = 6) (body_rows out).
Proof.
  eexists. split; [ reflexivity |].
  apply (image_table_row_widths sample_heap sample_heap [ 0; 0 ]).
  reflexivity.
Defined.

(** Two records that differ at most in their title have the same row. *)
Lemma render_row_title (r r' : ImageRecord) (index : nat) :
  same_but_title r r' ->
  exists row,
    (forall (h : heap) (image : loc),
       h !! image = Some r -> render_row image index h = Some (row, h))
    /\ (forall (h : heap) (image : loc),
          h !! image = Some r' -> render_row image index h = Some (row, h)).
Proof.
  intros (Hp & Hf & Hpa & Hs & Ha & Hh).
  eexists. split.
  - intros h image Hl. unfold render_row.
    rewrite !(bind_read h image r) by exact Hl. reflexivity.
  - intros h image Hl. unfold render_row.
    rewrite !(bind_read h image r') by exact Hl.
    rewrite <- Hp, <- Hf, <- Hpa, <- Hs, <- Ha, <- Hh. reflexivity.
Qed.

Lemma map_indexed_title (rs rs' : list ImageRecord) (i : nat) :
  Forall2 same_but_title rs rs' ->
  exists rows,
    (forall (h : heap) (images : list loc),
       deref h images = Some rs ->
       map_indexed render_row i images h = Some (rows, h))
    /\ (forall (h : heap) (images : list loc),
          deref h images = Some rs' ->
          map_indexed render_row i images h = Some (rows, h)).
Proof.
  intros Hsame. revert i.
  induction Hsame as [| r r' rs rs' Hr _ IH]; intros i.
  - exists []. split; intros h images Hd;
      rewrite (deref_nil_inv h images Hd); reflexivity.
  - destruct (render_row_title r r' i Hr) as (row & Hrow & Hrow').
    destruct (IH (S i)) as (rows & Hrows & Hrows').
    exists (row :: rows). split; intros h images Hd.
    + destruct (deref_cons_inv h images r rs Hd)
        as (image & rest & -> & Hl & Hrest).
      cbn [map_indexed]. unfold bind at 1. rewrite (Hrow h image Hl).
      unfold bind at 1. rewrite (Hrows h rest Hrest). reflexivity.
    + destruct (deref_cons_inv h images r' rs' Hd)
        as (image & rest & -> & Hl & Hrest).
      cbn [map_indexed]. unfold bind at 1. rewrite (Hrow' h image Hl).
      unfold bind at 1. rewrite (Hrows' h rest Hrest). reflexivity.
Qed.

(** X10: the table never shows the title of a record: two lists of records
    that differ at most in the titles are rendered as the same tree. *)
Theorem image_table_ignores_title (h h' : heap) (images images' : list loc)
        (rs rs' : list ImageRecord) :
  deref h images = Some rs ->
  deref h' images' = Some rs' ->
  Forall2 same_but_title rs rs' ->
  exists out,
    ImageTable images h = Some (out, h)
    /\ ImageTable images' h' = Some (out, h').
Proof.
  intros Hd Hd' Hsame.
  destruct (map_indexed_title rs rs' 0 Hsame) as (rows & Hrows & Hrows').
  destruct Hsame as [| r r' rs rs' _ _].
  - rewrite (deref_nil_inv h images Hd), (deref_nil_inv h' images' Hd').
    eexists. split; reflexivity.
  - destruct (deref_cons_inv h images r rs Hd) as (image & rest & -> & _).
    destruct (deref_cons_inv h' images' r' rs' Hd')
      as (image' & rest' & -> & _).
    unfold ImageTable. cbn [length Nat.eqb]. unfold bind.
    rewrite (Hrows h (image :: rest) Hd), (Hrows' h' (image' :: rest') Hd').
    eexists. split; reflexivity.
Qed.

Lemma image_table_ignores_title_witness :
  exists out,
    ImageTable [ 0 ] sample_heap = Some (out, sample_heap)
    /\ ImageTable [ 5 ] (<[ 5 := sample_retitled ]> ∅)
       = Some (out, <[ 5 := sample_retitled ]> ∅).
Proof.
  apply (image_table_ignores_title
           sample_heap (<[ 5 := sample_retitled ]> ∅) [ 0 ] [ 5 ]
           [ sample_record ] [ sample_retitled ]).
  - reflexivity.
  - reflexivity.
  - constructor; [| constructor ]. repeat split.
Defined.

End TableLayout.

(** ** The avatar component *)

Section AvatarFacts.

Import Dashboard AvatarComponent.

(** The first match in a filtered list is the first match in the list,
    when the filter keeps every match. *)
Lemma find_filter_keep {A : Type} (f P : A -> bool) (l : list A) :
  (forall x, f x = true -> P x = true) ->
  List.find f (List.filter P l) = List.find f l.
Proof.
  intros Hkeep. induction l as [| x l IH]; [ reflexivity |].
  cbn [List.filter List.find].
  destruct (f x) eqn:Ef.
  - rewrite (Hkeep x Ef). cbn [List.find]. rewrite Ef. reflexivity.
  - destruct (P x); [ cbn [List.find]; rewrite Ef |]; exact IH.
Qed.

(** There is no match in a filtered list when the filter drops every
    match. *)
Lemma find_filter_drop {A : Type} (f P : A -> bool) (l : list A) :
  (forall x, f x = true -> P x = false) ->
  List.find f (List.filter P l) = None.
Proof.
  intros Hdrop. induction l as [| x l IH]; [ reflexivity |].
  cbn [List.filter]. destruct (P x) eqn:Ep; [| exact IH ].
  cbn [List.find]. destruct (f x) eqn:Ef; [| exact IH ].
  rewrite (Hdrop x Ef) in Ep. discriminate Ep.
Qed.

Lemma find_append {A : Type} (f : A -> bool) (l1 l2 : list A) :
  List.find f (l1 ++ l2) =
  match List.find f l1 with
  | Some x => Some x
  | None => List.find f l2
  end.
Proof.
  induction l1 as [| x l1 IH]; [ reflexivity |].
  cbn [app List.find]. destruct (f x); [ reflexivity | exact IH ].
Qed.

(** Spreading keeps the keys and carries the values over. *)
Lemma find_spread (key : string) (obj : attrs) :
  List.find (fun kv => String.eqb key (fst kv)) (spread obj) =
  (fun kv => (fst kv, attr_prop (snd kv))) <$> List.find (has_key key) obj.
Proof.
  induction obj as [| [k v] obj IH]; [ reflexivity |].
  cbn [spread List.map List.find fst snd]. unfold has_key at 1. cbn [fst].
  destruct (String.eqb key k); [ reflexivity | exact IH ].
Qed.

(** The rest object has what the props object has, under every key but
    the two that are taken out. *)
Lemma lookup_rest_props (key : string) (obj : attrs) :
  key <> "fallback" -> key <> "className" ->
  lookup_attr key (rest_props obj) = lookup_attr key obj.
Proof.
  intros Hf Hc. unfold lookup_attr, rest_props.
  rewrite find_filter_keep; [ reflexivity |].
  intros [k v]. unfold has_key. cbn [fst]. intros Hk.
  apply String.eqb_eq in Hk. subst k.
  apply andb_true_intro. split; apply negb_true_iff, String.eqb_neq;
    congruence.
Qed.

(** The rest object has no class. *)
Lemma lookup_rest_props_class (obj : attrs) :
  lookup_attr "className" (rest_props obj) = None.
Proof.
  unfold lookup_attr, rest_props. rewrite find_filter_drop; [ reflexivity |].
  intros kv Hk. rewrite Hk. apply andb_false_r.
Qed.

(** The rest object has no fallback. *)
Lemma lookup_rest_props_fallback (obj : attrs) :
  lookup_attr "fallback" (rest_props obj) = None.
Proof.
  unfold lookup_attr, rest_props. rewrite find_filter_drop; [ reflexivity |].
  intros kv Hk. rewrite Hk. reflexivity.
Qed.

(** A property of the image, under a key other than the two that the
    element does not list, is the attribute of the rest object. *)
Lemma find_listed_spread (key : string) (obj : attrs) :
  key <> "className" -> key <> "children" ->
  snd <$> List.find (fun kv => String.eqb key (fst kv))
                    (List.filter listed (spread obj)
                     ++ [ ("className",
                           PCn [ Some "h-full w-full object-cover";
                                 class_arg (lookup_attr "className" obj) ]) ])
  = attr_prop <$> lookup_attr key obj.
Proof.
  intros Hc Hk. rewrite find_append, find_filter_keep, find_spread.
  - unfold lookup_attr.
    destruct (List.find (has_key key) obj) as [[k v] |]; [ reflexivity |].
    cbn [List.find fst]. apply String.eqb_neq in Hc. rewrite Hc. reflexivity.
  - intros [k p] Heq. cbn [fst] in *. apply String.eqb_eq in Heq. subst k.
    unfold listed. cbn [fst].
    apply andb_true_intro.
    split; apply negb_true_iff, String.eqb_neq; congruence.
Qed.

(** X11: when the src attribute is truthy, the avatar holds one img
    element and nothing of the fallback.  The children of the element are
    the ones passed to the avatar (none when none are passed); the element
    carries every other attribute given, with its value, and no attribute
    that was not given; the fallback is not passed on to it; and its class
    is the fixed one: the className given to the avatar goes to the wrapper
    only.  When src is missing, empty or zero, the avatar holds the
    fallback and no element of its own. *)
Theorem avatar_image_or_fallback (fallback : list VNode)
        (className : option string) (obj : attrs) :
  (truthy (lookup_attr "src" obj) = true ->
   exists image,
     children (Avatar fallback className obj) = [ image ]
     /\ tag_is "img" image = true
     /\ children image = child_nodes (lookup_attr "children" obj)
     /\ (forall key,
           key <> "fallback" -> key <> "className" -> key <> "children" ->
           prop_of key image = attr_prop <$> lookup_attr key obj)
     /\ prop_of "fallback" image = None
     /\ prop_of "children" image = None
     /\ prop_of "className" image =
        Some (PCn [ Some "h-full w-full object-cover"; None ]))
  /\ (truthy (lookup_attr "src" obj) = false ->
      children (Avatar fallback className obj) = fallback)
  /\ prop_of "className" (Avatar fallback className obj) =
     Some (PCn [ Some "flex h-10 w-10 items-center justify-center overflow-hidden rounded-full bg-slate-200 text-sm font-semibold text-slate-600";
                 className ]).
Proof.
  assert (Hsrc : lookup_attr "src" (rest_props obj) = lookup_attr "src" obj)
    by (apply lookup_rest_props; discriminate).
  split; [| split ].
  - intros Ht. unfold Avatar. cbn [children]. rewrite Hsrc, Ht.
    eexists. split; [ reflexivity |]. split; [ reflexivity |].
    split; [| split; [| split; [| split ] ] ].
    + cbn [children]. rewrite lookup_rest_props by discriminate. reflexivity.
    + intros key Hf Hc Hk. unfold prop_of.
      rewrite (find_listed_spread key (rest_props obj) Hc Hk).
      rewrite (lookup_rest_props key obj Hf Hc). reflexivity.
    + unfold prop_of.
      rewrite (find_listed_spread "fallback" (rest_props obj))
        by discriminate.
      rewrite lookup_rest_props_fallback. reflexivity.
    + unfold prop_of. rewrite find_append, find_filter_drop; [ reflexivity |].
      intros kv Hk. unfold listed. rewrite Hk. apply andb_false_r.
    + unfold prop_of. rewrite find_append, find_filter_drop.
      * rewrite lookup_rest_props_class. reflexivity.
      * intros kv Hk. unfold listed. rewrite Hk. reflexivity.
  - intros Hf. unfold Avatar. cbn [children]. rewrite Hsrc, Hf. reflexivity.
  - reflexivity.
Qed.

(** A photo with a text between the tags, with initials to fall back on
    and a class of the caller's: the image is shown with its source and its
    alternative text, the text is a child of the image, and the caller's
    class is not on it. *)
Lemma avatar_image_or_fallback_witness :
  exists image,
    children (Avatar sample_initials (Some "ring-2") sample_captioned)
    = [ image ]
    /\ tag_is "img" image = true
    /\ children image = [ VText "Ada Lovelace" ]
    /\ (forall key,
          key <> "fallback" -> key <> "className" -> key <> "children" ->
          prop_of key image = attr_prop <$> lookup_attr key sample_captioned)
    /\ prop_of "fallback" image = None
    /\ prop_of "children" image = None
    /\ prop_of "className" image =
       Some (PCn [ Some "h-full w-full object-cover"; None ]).
Proof.
  apply (avatar_image_or_fallback sample_initials (Some "ring-2")
                                  sample_captioned).
  reflexivity.
Defined.

End AvatarFacts.
